(** * Game-analysis pipeline of the chess suspicion detector (src/main.py)

    A shallow embedding of [analyze_game_process_safe], [avaliar_suspeita]
    and [analisar_usuario], and the properties of the specification that
    concern them.

    Conventions of the embedding.
    - A raw archive record is a JSON object; the keys the code tests for
      ("white", "black", "pgn", "url") are optional fields, a player entry
      carries the strings "username" and "result".
    - The chess library, the PGN parser, the engine process, the archive
      service and the process pool are external: they are parameters
      ([Chess], [Archive], [Pool]).  A board is its starting position, the
      side to move and the moves pushed so far, which determines its FEN.
    - A Python exception is a value of [Exn]; a computation that talks to
      the engine is a pair of its event trace and its result ([M]).
    - Integer counters are [nat].  An accuracy is the rational with two
      decimals that [round(x, 2)] denotes, computed from the exact ratio of
      the counters (nearest hundredth, ties to even).  The scorer is given
      twice: in binary64 ([score_b64], [avaliar_suspeita_b64]: primitive
      floats, every operation rounded as the interpreter rounds it, the sum
      taken left to right), for what the computed value is; and in exact
      arithmetic ([score], [avaliar_suspeita]), for bounds that rounding
      does not move.
    - [str.lower] is the ASCII lowering (archive handles are ASCII). *)

From Stdlib Require Import Floats.
From Stdlib Require Import String Ascii List Bool Arith ZArith QArith Qround.
From Stdlib Require Import Lia Lqa Permutation.
Import ListNotations.

Set Warnings "-inexact-float".
Local Open Scope string_scope.

(** ** Strings *)

Definition lower_ascii (c : ascii) : ascii :=
  let n := nat_of_ascii c in
  if ((65 <=? n) && (n <=? 90))%nat then ascii_of_nat (n + 32) else c.

Fixpoint lower (s : string) : string :=
  match s with
  | EmptyString => EmptyString
  | String c rest => String (lower_ascii c) (lower rest)
  end.

(** Truth value of a Python string: the empty string is falsy. *)
Definition truthy (s : string) : bool :=
  match s with EmptyString => false | String _ _ => true end.

(** ** Raw archive records and results *)

Record Player := { username : string; result : string }.

Record RawGame := {
  white : option Player;
  black : option Player;
  pgn : option string;
  game_url : option string
}.

(** The dictionary returned by [analyze_game_process_safe]. *)
Record GameResult := {
  oponente : string;
  resultado : string;
  precisao : Q;
  url : string
}.

(** One element of [partidas]: [(game, username, STOCKFISH_PATH)]. *)
Definition WorkUnit : Type := RawGame * string * string.

Definition STOCKFISH_PATH : string := "./bin/stockfish".
Definition max_partidas : nat := 10.

(** ** Exceptions and engine events *)

Inductive Exn :=
| KeyError (key : string)
| AttributeError
| OSError
| StockfishException
| ZeroDivisionError.

(** ** The chess library, as far as the code uses it *)

Inductive Color := WHITE | BLACK.

Definition Color_eqb (a b : Color) : bool :=
  match a, b with
  | WHITE, WHITE | BLACK, BLACK => true
  | _, _ => false
  end.

Definition other (c : Color) : Color :=
  match c with WHITE => BLACK | BLACK => WHITE end.

Inductive PieceType := PAWN | KNIGHT | BISHOP | ROOK | QUEEN | KING.

Definition piece_symbol (p : PieceType) : string :=
  match p with
  | PAWN => "p" | KNIGHT => "n" | BISHOP => "b"
  | ROOK => "r" | QUEEN => "q" | KING => "k"
  end.

Definition upper_symbol (p : PieceType) : string :=
  match p with
  | PAWN => "P" | KNIGHT => "N" | BISHOP => "B"
  | ROOK => "R" | QUEEN => "Q" | KING => "K"
  end.

Record Move := {
  from_square : nat;
  to_square : nat;
  promotion : option PieceType;
  drop : option PieceType
}.

Definition FILE_NAMES : list string := ["a"; "b"; "c"; "d"; "e"; "f"; "g"; "h"].
Definition RANK_NAMES : list string := ["1"; "2"; "3"; "4"; "5"; "6"; "7"; "8"].

Definition SQUARE_NAMES (sq : nat) : string :=
  nth (sq mod 8) FILE_NAMES "" ++ nth (sq / 8) RANK_NAMES "".

(** [Move.uci]: origin, destination and promotion piece; "0000" for the
    null move. *)
Definition uci (m : Move) : string :=
  match drop m, promotion m with
  | Some d, _ => upper_symbol d ++ "@" ++ SQUARE_NAMES (to_square m)
  | None, Some p =>
      SQUARE_NAMES (from_square m) ++ SQUARE_NAMES (to_square m) ++ piece_symbol p
  | None, None =>
      match from_square m, to_square m with
      | O, O => "0000"
      | _, _ => SQUARE_NAMES (from_square m) ++ SQUARE_NAMES (to_square m)
      end
  end.

Record Board := {
  root : string;
  turn : Color;
  move_stack : list Move
}.

(** [Board.push]: the move is recorded and the turn passes. *)
Definition push (b : Board) (m : Move) : Board :=
  {| root := root b; turn := other (turn b); move_stack := move_stack b ++ [m] |}.

(** A parsed PGN: [game_pgn.board()] and [game_pgn.mainline_moves()]. *)
Record Game := {
  game_board : Board;
  mainline_moves : list Move
}.

(** What [get_best_move] does at a position: a move in UCI notation,
    [None] when the engine has no move, or the process dies. *)
Inductive Reply :=
| bestmove (best : string)
| no_move
| died.

Record Chess := {
  read_game : string -> option Game;
  engine_starts : string -> bool;
  get_best_move : Board -> Reply
}.

(** What happens to the engine: a process was created from the binary at
    [path]; the engine was asked about a position. *)
Inductive Event :=
| EngineStart (path : string)
| EngineQuery (position : Board).

(** ** Computations: an event trace and a result or an exception *)

Definition M (A : Type) : Type := list Event * (Exn + A).

Definition ret {A} (a : A) : M A := ([], inr a).
Definition raise {A} (e : Exn) : M A := ([], inl e).
Definition emit (ev : Event) : M unit := ([ev], inr tt).

Definition bind {A B} (m : M A) (k : A -> M B) : M B :=
  match m with
  | (t, inl e) => (t, inl e)
  | (t, inr a) => let (t', r) := k a in ((t ++ t')%list, r)
  end.

Declare Scope run_scope.
Delimit Scope run_scope with run.
Notation "x <- m ;; k" := (bind m (fun x => k))
  (at level 100, m at next level, right associativity) : run_scope.
Notation "m ;;; k" := (bind m (fun _ => k))
  (at level 100, right associativity) : run_scope.
Local Open Scope run_scope.

Definition trace {A} (m : M A) : list Event := fst m.
Definition outcome {A} (m : M A) : Exn + A := snd m.

Fixpoint foldM {A S} (f : S -> A -> M S) (l : list A) (s : S) : M S :=
  match l with
  | [] => ret s
  | a :: rest => s' <- f s a ;; foldM f rest s'
  end.

(** [d[key]] on an optional field. *)
Definition getitem {A} (key : string) (field : option A) : M A :=
  match field with
  | Some v => ret v
  | None => raise (KeyError key)
  end.

(** ** Arithmetic *)

Definition Q_of_nat (n : nat) : Q := inject_Z (Z.of_nat n).

(** [a / b] on integers. *)
Definition truediv (a b : nat) : M Q :=
  if (b =? 0)%nat then raise ZeroDivisionError else ret (Q_of_nat a / Q_of_nat b)%Q.

(** Nearest integer, ties to even. *)
Definition round_half_even (x : Q) : Z :=
  let f := Qfloor x in
  match (x - inject_Z f ?= 1 # 2)%Q with
  | Lt => f
  | Gt => (f + 1)%Z
  | Eq => if Z.even f then f else (f + 1)%Z
  end.

(** [round(x, 2)]. *)
Definition round2 (x : Q) : Q :=
  Qred (inject_Z (round_half_even (x * 100)) / 100)%Q.

(** ** analyze_game_process_safe *)

Record Replay := {
  board : Board;
  total_moves : nat;
  best_moves : nat
}.

Definition ask (env : Chess) (b : Board) : M (option string) :=
  emit (EngineQuery b) ;;;
  match get_best_move env b with
  | bestmove s => ret (Some s)
  | no_move => ret None
  | died => raise StockfishException
  end.

Definition best_is (best : option string) (s : string) : bool :=
  match best with
  | Some b => String.eqb b s
  | None => false
  end.

(** One iteration of the loop over [game_pgn.mainline_moves()]. *)
Definition replay_move (env : Chess) (user_color : Color) (st : Replay) (move : Move)
  : M Replay :=
  let board := push (board st) move in
  let total_moves := S (total_moves st) in
  if (Color_eqb user_color WHITE && Color_eqb (turn board) BLACK)
     || (Color_eqb user_color BLACK && Color_eqb (turn board) WHITE)
  then ret {| board := board; total_moves := total_moves; best_moves := best_moves st |}
  else
    best <- ask env board ;;
    ret {| board := board; total_moves := total_moves;
           best_moves := if best_is best (uci move)
                         then S (best_moves st) else best_moves st |}.

Definition replay (env : Chess) (user_color : Color) (pgn_text : string) : M Replay :=
  if truthy pgn_text then
    match read_game env pgn_text with
    | None => raise AttributeError
    | Some game_pgn =>
        foldM (replay_move env user_color) (mainline_moves game_pgn)
              {| board := game_board game_pgn; total_moves := 0; best_moves := 0 |}
    end
  else ret {| board := {| root := ""; turn := WHITE; move_stack := [] |};
              total_moves := 0; best_moves := 0 |}.

Definition accuracy (best_moves total_moves : nat) : M Q :=
  match total_moves with
  | O => ret 0%Q
  | S _ => q <- truediv best_moves total_moves ;; ret (round2 (q * 100))
  end.

Definition opponent_of (w b : Player) (uname : string) : string :=
  if String.eqb (username b) uname then username w else username b.

Definition result_of (w b : Player) (uname : string) : string :=
  if String.eqb (username w) uname then result w else result b.

Definition user_color_of (w : Player) (uname : string) : Color :=
  if String.eqb (username w) uname then WHITE else BLACK.

(** [game.get("pgn", "")]. *)
Definition pgn_text_of (game : RawGame) : string :=
  match pgn game with Some s => s | None => "" end.

Definition analyze_game_process_safe (env : Chess) (game_data : WorkUnit)
  : M GameResult :=
  let '(game, uname, stockfish_path) := game_data in
  (if engine_starts env stockfish_path
   then emit (EngineStart stockfish_path) else raise OSError) ;;;
  b <- getitem "black" (black game) ;;
  w <- getitem "white" (white game) ;;
  let opponent := opponent_of w b uname in
  let result := result_of w b uname in
  let user_color := user_color_of w uname in
  let pgn_text := pgn_text_of game in
  st <- replay env user_color pgn_text ;;
  precisao <- accuracy (best_moves st) (total_moves st) ;;
  u <- getitem "url" (game_url game) ;;
  ret {| oponente := opponent; resultado := result; precisao := precisao; url := u |}.

(** ** avaliar_suspeita *)

Definition is_win (j : GameResult) : bool := String.eqb (resultado j) "win".

(** [j["precisao"] > 90]. *)
Definition above_90 (j : GameResult) : bool := negb (Qle_bool (precisao j) 90).

(** [sum(1 for j in jogos if p(j))]. *)
Definition count_if (p : GameResult -> bool) (jogos : list GameResult) : nat :=
  length (filter p jogos).

(** [sum(j["precisao"] for j in jogos)], left to right from 0, in exact
    arithmetic. *)
Definition sum_precisao (jogos : list GameResult) : Q :=
  fold_left (fun acc j => acc + precisao j)%Q jogos 0%Q.

(** The local variable [score], for a batch with [total > 0], in exact
    arithmetic. *)
Definition score (jogos : list GameResult) : Q :=
  let total := Q_of_nat (length jogos) in
  let vitorias := Q_of_nat (count_if is_win jogos) in
  let media_precisao := (sum_precisao jogos / total)%Q in
  let partidas_precisas := Q_of_nat (count_if above_90 jogos) in
  let vitorias_pct := (vitorias / total)%Q in
  let precisao_alta_pct := (partidas_precisas / total)%Q in
  (((media_precisao / 100) * (5 # 10)
    + vitorias_pct * (3 # 10)
    + precisao_alta_pct * (2 # 10)) * 100)%Q.

(** [avaliar_suspeita] with the score in exact arithmetic. *)
Definition avaliar_suspeita (jogos : list GameResult) : bool :=
  match length jogos with
  | O => false
  | S _ => Qle_bool 75 (score jogos)
  end.

(** ** analisar_usuario *)

(** The archive service: [None] stands for a response that is not 200. *)
Record Archive := {
  archives_of : string -> option (list string);
  games_of : string -> option (list RawGame)
}.

Definition fetch_archives (net : Archive) (uname : string) : list string :=
  match archives_of net (lower uname) with
  | Some archives => archives
  | None => []
  end.

Definition fetch_games_from_archive (net : Archive) (archive_url : string)
  : list RawGame :=
  match games_of net archive_url with
  | Some games => games
  | None => []
  end.

(** The test of lines 118-120 on one record. *)
Definition selects (uname : string) (game : RawGame) : bool :=
  match white game, black game with
  | Some w, Some b =>
      existsb (String.eqb (lower uname)) [lower (username w); lower (username b)]
  | _, _ => false
  end.

(** A work unit whose record passes that test. *)
Definition selected (uname : string) (u : WorkUnit) : Prop :=
  selects uname (fst (fst u)) = true.

(** The inner loop, [for game in games]. *)
Fixpoint scan_games (uname : string) (games : list RawGame) (partidas : list WorkUnit)
  : list WorkUnit :=
  match games with
  | [] => partidas
  | game :: rest =>
      if (max_partidas <=? length partidas)%nat then partidas
      else scan_games uname rest
             (if selects uname game
              then (partidas ++ [(game, uname, STOCKFISH_PATH)])%list
              else partidas)
  end.

(** The outer loop, [for archive in reversed(archives)]. *)
Fixpoint scan_archives (net : Archive) (uname : string) (archives : list string)
    (partidas : list WorkUnit) : list WorkUnit :=
  match archives with
  | [] => partidas
  | archive :: rest =>
      let partidas := scan_games uname (fetch_games_from_archive net archive) partidas in
      if (max_partidas <=? length partidas)%nat then partidas
      else scan_archives net uname rest partidas
  end.

Definition partidas_of (net : Archive) (uname : string) : list WorkUnit :=
  scan_archives net uname (rev (fetch_archives net uname)) [].

(** The process pool: the order in which the futures complete, and the
    worker process that runs the unit submitted at each index. *)
Record Pool := {
  as_completed : list (M GameResult) -> list (M GameResult);
  worker_of : nat -> nat
}.

(** [as_completed] yields every submitted future once. *)
Definition fair (pool : Pool) : Prop :=
  forall futures, Permutation (as_completed pool futures) futures.

(** The loop over [as_completed(futures)]: a result is appended, an
    exception is printed and dropped. *)
Fixpoint gather (futures : list (M GameResult)) (detalhes : list GameResult)
  : list GameResult :=
  match futures with
  | [] => detalhes
  | future :: rest =>
      match outcome future with
      | inr r => gather rest (detalhes ++ [r])%list
      | inl _ => gather rest detalhes
      end
  end.

(** The results of the futures that did not raise, in their order. *)
Fixpoint successes (futures : list (M GameResult)) : list GameResult :=
  match futures with
  | [] => []
  | future :: rest =>
      match outcome future with
      | inr r => r :: successes rest
      | inl _ => successes rest
      end
  end.

(** The analysis of a unit returns a result. *)
Definition succeeds (env : Chess) (u : WorkUnit) : Prop :=
  exists r, outcome (analyze_game_process_safe env u) = inr r.

Inductive Response :=
| erro (mensagem : string)
| relatorio (usuario : string) (jogos_analisados : nat)
    (detalhes : list GameResult) (suspeito : bool).

Definition submit_all (env : Chess) (partidas : list WorkUnit) : list (M GameResult) :=
  map (analyze_game_process_safe env) partidas.

(** The response, and the engine events of the request. *)
Definition analisar_usuario (env : Chess) (net : Archive) (pool : Pool) (uname : string)
  : list Event * Response :=
  match fetch_archives net uname with
  | [] => ([], erro "Usuário não encontrado ou sem partidas.")
  | _ :: _ =>
      let partidas := partidas_of net uname in
      let done := as_completed pool (submit_all env partidas) in
      let detalhes := gather done [] in
      (concat (map trace done),
       match detalhes with
       | [] => erro "Nenhuma partida encontrada para este usuário."
       | _ :: _ =>
           relatorio uname (length detalhes) detalhes (avaliar_suspeita detalhes)
       end)
  end.

(** ** Engine sessions per worker *)

Definition is_start (ev : Event) : bool :=
  match ev with EngineStart _ => true | EngineQuery _ => false end.

Definition query_only (ev : Event) : Prop := is_start ev = false.

(** The engine processes created in a trace. *)
Definition sessions (t : list Event) : nat := length (filter is_start t).

(** The units a worker runs: those submitted at an index the pool gives it. *)
Fixpoint units_from (pool : Pool) (w : nat) (i : nat) (partidas : list WorkUnit)
  : list WorkUnit :=
  match partidas with
  | [] => []
  | u :: rest =>
      if (worker_of pool i =? w)%nat then u :: units_from pool w (S i) rest
      else units_from pool w (S i) rest
  end.

Definition units_of_worker (pool : Pool) (w : nat) (partidas : list WorkUnit)
  : list WorkUnit := units_from pool w 0 partidas.

(** Engine sessions a worker creates while it runs its units. *)
Definition sessions_of_worker (env : Chess) (pool : Pool) (w : nat)
    (partidas : list WorkUnit) : nat :=
  list_sum (map (fun u => sessions (trace (analyze_game_process_safe env u)))
                (units_of_worker pool w partidas)).

(** ** The specification's own wording, for comparison *)

Record Tally := {
  considered : nat;
  matched : nat
}.

(** The Move Comparator as the specification words it: the engine is asked
    at the position before a move of the target player, and only then. *)
Fixpoint spec_replay (env : Chess) (user_color : Color) (b : Board)
    (moves : list Move) (t : Tally) : M Tally :=
  match moves with
  | [] => ret t
  | move :: rest =>
      if Color_eqb (turn b) user_color then
        best <- ask env b ;;
        spec_replay env user_color (push b move) rest
          {| considered := S (considered t);
             matched := if best_is best (uci move) then S (matched t) else matched t |}
      else spec_replay env user_color (push b move) rest t
  end.

(** Accuracy = matched/considered x 100 to two decimals, 0 if considered = 0. *)
Definition spec_accuracy (t : Tally) : Q :=
  match considered t with
  | O => 0%Q
  | S _ => round2 (Q_of_nat (matched t) / Q_of_nat (considered t) * 100)
  end.

(** Moves made on the target player's turn. *)
Fixpoint target_plies (user_color : Color) (b : Board) (moves : list Move) : nat :=
  match moves with
  | [] => 0
  | move :: rest =>
      (if Color_eqb (turn b) user_color then 1 else 0)
      + target_plies user_color (push b move) rest
  end.

(** The moves of a raw record; a record without readable move text has
    none. *)
Definition plies (env : Chess) (game : RawGame) : nat :=
  if truthy (pgn_text_of game) then
    match read_game env (pgn_text_of game) with
    | Some g => length (mainline_moves g)
    | None => 0
    end
  else 0.

(** The moves made on the target player's turn, for a raw record and a
    handle. *)
Definition target_moves (env : Chess) (game : RawGame) (uname : string) : nat :=
  match white game, pgn game with
  | Some w, Some pgn_text =>
      if truthy pgn_text then
        match read_game env pgn_text with
        | Some g => target_plies (user_color_of w uname) (game_board g) (mainline_moves g)
        | None => 0
        end
      else 0
  | _, _ => 0
  end.

(** The engine never proposes the move that was just played: its move
    starts from a square of the side to move, and the square the last move
    left holds no piece of that side. *)
Definition answers_for_side_to_move (env : Chess) : Prop :=
  forall b m, get_best_move env (push b m) <> bestmove (uci m).

(** ** A small game, parser and engine to run the definitions on *)

Definition plain (src dst : nat) : Move :=
  {| from_square := src; to_square := dst; promotion := None; drop := None |}.

Definition e2e4 : Move := plain 12 28.
Definition e7e5 : Move := plain 52 36.
Definition g1f3 : Move := plain 6 21.

Definition STARTING_FEN : string :=
  "rnbqkbnr/pppppppp/8/8/8/8/PPPPPPPP/RNBQKBNR w KQkq - 0 1".

Definition starting_board : Board :=
  {| root := STARTING_FEN; turn := WHITE; move_stack := [] |}.

(** A parser that knows three move texts. *)
Definition known_pgn (text : string) : option Game :=
  if String.eqb text "1. e4 e5 2. Nf3" then
    Some {| game_board := starting_board; mainline_moves := [e2e4; e7e5; g1f3] |}
  else if String.eqb text "1. e4 e5" then
    Some {| game_board := starting_board; mainline_moves := [e2e4; e7e5] |}
  else if String.eqb text "1. e4" then
    Some {| game_board := starting_board; mainline_moves := [e2e4] |}
  else None.

(** An engine that plays the open game by the book: its answer depends on
    the last move played. *)
Definition book (b : Board) : Reply :=
  match rev (move_stack b) with
  | [] => bestmove "e2e4"
  | last_move :: _ =>
      if String.eqb (uci last_move) "e2e4" then bestmove "e7e5"
      else if String.eqb (uci last_move) "e7e5" then bestmove "g1f3"
      else if String.eqb (uci last_move) "g1f3" then bestmove "b8c6"
      else no_move
  end.

Definition demo_chess : Chess :=
  {| read_game := known_pgn; engine_starts := fun _ => true; get_best_move := book |}.

Definition alice_white : RawGame :=
  {| white := Some {| username := "Alice"; result := "win" |};
     black := Some {| username := "bob"; result := "resigned" |};
     pgn := Some "1. e4 e5 2. Nf3";
     game_url := Some "https://www.chess.com/game/live/1" |}.

Definition alice_black : RawGame :=
  {| white := Some {| username := "bob"; result := "checkmated" |};
     black := Some {| username := "Alice"; result := "win" |};
     pgn := Some "1. e4 e5";
     game_url := Some "https://www.chess.com/game/live/2" |}.

(** The player had Black and left after White's first move. *)
Definition alice_unmoved : RawGame :=
  {| white := Some {| username := "bob"; result := "win" |};
     black := Some {| username := "Alice"; result := "abandoned" |};
     pgn := Some "1. e4";
     game_url := Some "https://www.chess.com/game/live/5" |}.

(** A record of a game abandoned before any move: no move text. *)
Definition alice_no_pgn : RawGame :=
  {| white := Some {| username := "Alice"; result := "win" |};
     black := Some {| username := "bob"; result := "abandoned" |};
     pgn := None;
     game_url := Some "https://www.chess.com/game/live/3" |}.

(** A record without its address: building the result raises KeyError. *)
Definition alice_no_url : RawGame :=
  {| white := Some {| username := "Alice"; result := "win" |};
     black := Some {| username := "bob"; result := "resigned" |};
     pgn := Some "1. e4 e5";
     game_url := None |}.

(** A record without a "black" entry. *)
Definition alice_alone : RawGame :=
  {| white := Some {| username := "Alice"; result := "win" |};
     black := None;
     pgn := Some "1. e4";
     game_url := Some "https://www.chess.com/game/live/4" |}.

(** A collected batch of two results. *)
Definition two_results : list GameResult :=
  [ {| oponente := "bob"; resultado := "win"; precisao := 9550 # 100;
       url := "https://www.chess.com/game/live/1" |};
    {| oponente := "carl"; resultado := "resigned"; precisao := 40;
       url := "https://www.chess.com/game/live/6" |} ].

Definition one_period (games : list RawGame) : Archive :=
  {| archives_of := fun h =>
       if String.eqb h "alice"
       then Some ["https://api.chess.com/pub/player/alice/games/2024/01"] else None;
     games_of := fun _ => Some games |}.

(** Futures complete in the reverse of the submission order; one worker. *)
Definition lifo_pool : Pool :=
  {| as_completed := @rev (M GameResult); worker_of := fun _ => 0%nat |}.

(** ** Vocabulary for the properties of the pipeline *)

(** The work unit the scan builds from a record. *)
Definition unit_of (uname : string) (game : RawGame) : WorkUnit :=
  (game, uname, STOCKFISH_PATH).

(** Every record the scan can see, newest archive first. *)
Definition records_newest_first (net : Archive) (uname : string) : list RawGame :=
  concat (map (fetch_games_from_archive net) (rev (fetch_archives net uname))).

(** Moves made on the turn of the target player's opponent. *)
Fixpoint opponent_plies (user_color : Color) (b : Board) (moves : list Move) : nat :=
  match moves with
  | [] => 0
  | move :: rest =>
      (if Color_eqb (turn b) user_color then 0 else 1)
      + opponent_plies user_color (push b move) rest
  end.

(** The positions reached by the moves of the target player's opponent,
    each taken right after the move, in the order of the game. *)
Fixpoint boards_after_opponent_moves (user_color : Color) (b : Board)
    (moves : list Move) : list Board :=
  match moves with
  | [] => []
  | move :: rest =>
      (if Color_eqb (turn b) user_color then [] else [push b move])
      ++ boards_after_opponent_moves user_color (push b move) rest
  end.

(** The positions put to the engine during a computation. *)
Fixpoint queried (t : list Event) : list Board :=
  match t with
  | [] => []
  | EngineQuery b :: rest => b :: queried rest
  | EngineStart _ :: rest => queried rest
  end.

(** The accuracies of a batch are percentages. *)
Definition percentages (jogos : list GameResult) : Prop :=
  Forall (fun j => 0 <= precisao j <= 100) jogos.

(** An engine binary that does not start. *)
Definition no_engine : Chess :=
  {| read_game := known_pgn; engine_starts := fun _ => false; get_best_move := book |}.

(** A record whose move text holds no game. *)
Definition alice_blank_pgn : RawGame :=
  {| white := Some {| username := "Alice"; result := "win" |};
     black := Some {| username := "bob"; result := "resigned" |};
     pgn := Some " ";
     game_url := Some "https://www.chess.com/game/live/7" |}.

(** A record of two other players. *)
Definition strangers : RawGame :=
  {| white := Some {| username := "carl"; result := "win" |};
     black := Some {| username := "bob"; result := "timeout" |};
     pgn := Some "1. e4 e5";
     game_url := Some "https://www.chess.com/game/live/8" |}.

(** A batch of three wins with every move matched. *)
Definition perfect_results : list GameResult :=
  let jogo := {| oponente := "bob"; resultado := "win"; precisao := 100;
                 url := "https://www.chess.com/game/live/1" |} in
  [jogo; jogo; jogo].

(** A batch of two lost games with every move matched. *)
Definition lost_results : list GameResult :=
  let jogo := {| oponente := "bob"; resultado := "checkmated"; precisao := 100;
                 url := "https://www.chess.com/game/live/9" |} in
  [jogo; jogo].

(** ** The scorer in binary64 *)

(** The double of an integer, as Python converts it. *)
Definition float_of_Z (z : Z) : float :=
  SF2Prim (binary_normalize prec emax z 0 false).

Definition float_of_nat (n : nat) : float := float_of_Z (Z.of_nat n).

(** The double that holds a number of two decimals: the nearest to it. *)
Definition float_of_Q (q : Q) : float :=
  (float_of_Z (Qnum q) / float_of_Z (Zpos (Qden q)))%float.

Definition precisao_b64 (j : GameResult) : float := float_of_Q (precisao j).

(** [j["precisao"] > 90]. *)
Definition above_90_b64 (j : GameResult) : bool := (90 <? precisao_b64 j)%float.

(** [sum(j["precisao"] for j in jogos)] on doubles: from 0, left to right,
    every addition rounded. *)
Definition sum_precisao_b64 (jogos : list GameResult) : float :=
  fold_left (fun acc j => (acc + precisao_b64 j)%float) jogos 0%float.

(** The local variable [score] as lines 83-96 compute it, in binary64. *)
Definition score_b64 (jogos : list GameResult) : float :=
  let total := float_of_nat (length jogos) in
  let vitorias := float_of_nat (count_if is_win jogos) in
  let media_precisao := (sum_precisao_b64 jogos / total)%float in
  let partidas_precisas := float_of_nat (count_if above_90_b64 jogos) in
  let vitorias_pct := (vitorias / total)%float in
  let precisao_alta_pct := (partidas_precisas / total)%float in
  (((media_precisao / 100) * 0.5
    + vitorias_pct * 0.3
    + precisao_alta_pct * 0.2) * 100)%float.

(** [avaliar_suspeita] with the score in binary64. *)
Definition avaliar_suspeita_b64 (jogos : list GameResult) : bool :=
  match length jogos with
  | O => false
  | S _ => (75 <=? score_b64 jogos)%float
  end.

(** *** The scorer as the specification words it, in binary64 *)

(** The results with outcome win. *)
Fixpoint wins_among (batch : list GameResult) : nat :=
  match batch with
  | [] => 0
  | j :: rest =>
      if String.eqb (resultado j) "win" then S (wins_among rest) else wins_among rest
  end.

(** The results with accuracy strictly greater than 90. *)
Fixpoint above_90_among (batch : list GameResult) : nat :=
  match batch with
  | [] => 0
  | j :: rest =>
      if (90 <? precisao_b64 j)%float then S (above_90_among rest)
      else above_90_among rest
  end.

(** The accuracies added one after the other to a running total. *)
Fixpoint added_up (running : float) (batch : list GameResult) : float :=
  match batch with
  | [] => running
  | j :: rest => added_up (running + precisao_b64 j)%float rest
  end.

(** win_rate = wins / total. *)
Definition win_rate_b64 (batch : list GameResult) : float :=
  (float_of_nat (wins_among batch) / float_of_nat (length batch))%float.

(** mean_accuracy = average of the accuracies. *)
Definition mean_accuracy_b64 (batch : list GameResult) : float :=
  (added_up 0 batch / float_of_nat (length batch))%float.

(** high_accuracy_rate = fraction of games with accuracy > 90. *)
Definition high_accuracy_rate_b64 (batch : list GameResult) : float :=
  (float_of_nat (above_90_among batch) / float_of_nat (length batch))%float.

(** score = 100 x (0.5 x mean_accuracy/100 + 0.3 x win_rate + 0.2 x high_accuracy_rate). *)
Definition spec_score_b64 (batch : list GameResult) : float :=
  (100 * (0.5 * (mean_accuracy_b64 batch / 100)
          + 0.3 * win_rate_b64 batch
          + 0.2 * high_accuracy_rate_b64 batch))%float.

(** suspicious = score >= 75. *)
Definition spec_suspicious_b64 (batch : list GameResult) : bool :=
  (75 <=? spec_score_b64 batch)%float.

(** Two wins, with accuracies 100 and 40. *)
Definition threshold_results : list GameResult :=
  [ {| oponente := "bob"; resultado := "win"; precisao := 100;
       url := "https://www.chess.com/game/live/1" |};
    {| oponente := "carl"; resultado := "win"; precisao := 40;
       url := "https://www.chess.com/game/live/6" |} ].



(** * Properties *)

(** ** The move-by-move replay *)

(** C1, at the game 1. e4 e5 2. Nf3 played by the target as White against
    the book engine.  The specification asks the engine before each of the
    target's two moves (both are the book moves: considered 2, matched 2,
    accuracy 100).  The code pushes the move first: it counts all three
    plies, asks the engine once, after the opponent's move e7e5, compares
    the answer g1f3 with e7e5, and reports accuracy 0. *)
Theorem replay_asks_after_the_opponent_moved :
  let b0 := starting_board in
  let b2 := push (push b0 e2e4) e7e5 in
  replay demo_chess WHITE "1. e4 e5 2. Nf3"
  = ([EngineQuery b2],
     inr {| board := push b2 g1f3; total_moves := 3; best_moves := 0 |})
  /\ (exists r,
        outcome (analyze_game_process_safe demo_chess (alice_white, "Alice", STOCKFISH_PATH))
        = inr r /\ precisao r == 0)
  /\ spec_replay demo_chess WHITE b0 [e2e4; e7e5; g1f3] {| considered := 0; matched := 0 |}
     = ([EngineQuery b0; EngineQuery b2], inr {| considered := 2; matched := 2 |})
  /\ spec_accuracy {| considered := 2; matched := 2 |} == 100.
Proof.
  cbv zeta. split; [reflexivity|]. split.
  - eexists. split; [vm_compute; reflexivity | reflexivity].
  - split; reflexivity.
Qed.

(** ** Attribution of side, opponent and outcome *)

(** C4, at two records of the player registered as "Alice".  The selection
    compares lowered handles and accepts both spellings; the analysis
    compares the handle as typed, so the request for "alice" attributes to
    the player the other side, the opponent's outcome, and names the player
    as the opponent. *)
Theorem handle_case_changes_attribution :
  selects "Alice" alice_white = true /\ selects "alice" alice_white = true
  /\ (forall w, white alice_white = Some w ->
        user_color_of w "Alice" = WHITE /\ user_color_of w "alice" = BLACK)
  /\ (exists r, outcome (analyze_game_process_safe demo_chess
                           (alice_white, "Alice", STOCKFISH_PATH)) = inr r
                /\ resultado r = "win" /\ oponente r = "bob")
  /\ (exists r, outcome (analyze_game_process_safe demo_chess
                           (alice_white, "alice", STOCKFISH_PATH)) = inr r
                /\ resultado r = "resigned" /\ oponente r = "bob")
  /\ (exists r, outcome (analyze_game_process_safe demo_chess
                           (alice_black, "Alice", STOCKFISH_PATH)) = inr r
                /\ resultado r = "win" /\ oponente r = "bob")
  /\ (exists r, outcome (analyze_game_process_safe demo_chess
                           (alice_black, "alice", STOCKFISH_PATH)) = inr r
                /\ resultado r = "win" /\ oponente r = "Alice").
Proof.
  split; [reflexivity|]. split; [reflexivity|]. split.
  - intros w Hw. injection Hw as <-. split; reflexivity.
  - repeat split; eexists; (split; [vm_compute; reflexivity | split; reflexivity]).
Qed.

(** ** Computations *)

Lemma outcome_bind {A B} (m : M A) (k : A -> M B) :
  outcome (bind m k)
  = match outcome m with
    | inl e => inl e
    | inr a => outcome (k a)
    end.
Proof.
  destruct m as [t [e | a]]; simpl; [reflexivity|].
  destruct (k a); reflexivity.
Qed.

Lemma trace_bind {A B} (m : M A) (k : A -> M B) :
  trace (bind m k)
  = (trace m ++ match outcome m with
                | inl _ => []
                | inr a => trace (k a)
                end)%list.
Proof.
  destruct m as [t [e | a]]; simpl.
  - now rewrite app_nil_r.
  - destruct (k a); reflexivity.
Qed.

(** A property of the loop state that every iteration keeps holds when
    the loop ends. *)
Lemma foldM_keeps {A S} (f : S -> A -> M S) (P : S -> Prop) :
  (forall s a s', P s -> outcome (f s a) = inr s' -> P s') ->
  forall l s s', P s -> outcome (foldM f l s) = inr s' -> P s'.
Proof.
  intros step l. induction l as [| a l IH]; intros s s' Hs H; simpl in H.
  - injection H as <-. exact Hs.
  - rewrite outcome_bind in H.
    destruct (outcome (f s a)) as [e | s1] eqn:E; [discriminate|].
    eapply IH; [eapply step; eassumption | exact H].
Qed.

(** An exception of the loop is an exception of one of its iterations. *)
Lemma foldM_raises {A S} (f : S -> A -> M S) (E : Exn -> Prop) :
  (forall s a e, outcome (f s a) = inl e -> E e) ->
  forall l s e, outcome (foldM f l s) = inl e -> E e.
Proof.
  intros step l. induction l as [| a l IH]; intros s e H; simpl in H.
  - discriminate.
  - rewrite outcome_bind in H.
    destruct (outcome (f s a)) as [e1 | s1] eqn:E1.
    + injection H as <-. eapply step; eassumption.
    + eapply IH; exact H.
Qed.

(** ** Rounding *)

Lemma round_half_even_bounds (x : Q) (n : Z) :
  0 <= x -> x <= inject_Z n -> (0 <= round_half_even x <= n)%Z.
Proof.
  intros H0 Hn. unfold round_half_even.
  assert (Hf0 : (0 <= Qfloor x)%Z).
  { change 0%Z with (Qfloor 0). now apply Qfloor_resp_le. }
  assert (Hfn : (Qfloor x <= n)%Z).
  { rewrite <- (Qfloor_Z n). now apply Qfloor_resp_le. }
  assert (Hgap : (x - inject_Z (Qfloor x) ?= 1 # 2)%Q <> Lt -> (Qfloor x + 1 <= n)%Z).
  { intros Hc.
    destruct (Z.eq_dec (Qfloor x) n) as [Heq | Hne]; [|lia].
    exfalso. apply Hc. apply -> Qlt_alt. rewrite Heq.
    revert Hn. generalize (inject_Z n). intros q Hq. lra. }
  destruct (x - inject_Z (Qfloor x) ?= 1 # 2)%Q eqn:Hc.
  - destruct (Z.even (Qfloor x)); [lia|].
    assert (Qfloor x + 1 <= n)%Z by (apply Hgap; discriminate). lia.
  - lia.
  - assert (Qfloor x + 1 <= n)%Z by (apply Hgap; discriminate). lia.
Qed.

Lemma round2_bounds (x : Q) : 0 <= x -> x <= 100 -> 0 <= round2 x <= 100.
Proof.
  intros H0 H1. unfold round2. rewrite Qred_correct.
  destruct (round_half_even_bounds (x * 100) 10000) as [Hlo Hhi].
  - lra.
  - change (inject_Z 10000) with (10000 # 1). lra.
  - rewrite Zle_Qle in Hlo, Hhi.
    change (inject_Z 0) with 0 in Hlo.
    change (inject_Z 10000) with (10000 # 1) in Hhi.
    set (k := inject_Z (round_half_even (x * 100))) in *.
    split.
    + apply Qle_shift_div_l; lra.
    + apply Qle_shift_div_r; lra.
Qed.

Lemma round2_zero (x : Q) : x == 0 -> round2 x == 0.
Proof.
  intros Hx. unfold round2. rewrite Qred_correct.
  assert (H : round_half_even (x * 100) = 0%Z).
  { destruct (round_half_even_bounds (x * 100) 0) as [Hlo Hhi].
    - rewrite Hx. lra.
    - rewrite Hx. change (inject_Z 0) with 0. lra.
    - lia. }
  rewrite H. reflexivity.
Qed.

Example round2_one_third : round2 (Q_of_nat 1 / Q_of_nat 3 * 100) = 3333 # 100.
Proof. reflexivity. Qed.

Example round2_two_thirds : round2 (Q_of_nat 2 / Q_of_nat 3 * 100) = 6667 # 100.
Proof. reflexivity. Qed.

Example round2_tie_to_even : round2 (Q_of_nat 1 / Q_of_nat 32 * 100) = 78 # 25.
Proof. reflexivity. Qed.

Lemma Q_of_nat_nonneg (n : nat) : 0 <= Q_of_nat n.
Proof.
  unfold Q_of_nat. change 0 with (inject_Z 0). rewrite <- Zle_Qle. lia.
Qed.

Lemma Q_of_nat_pos (n : nat) : (0 < n)%nat -> 0 < Q_of_nat n.
Proof.
  intros H. unfold Q_of_nat. change 0 with (inject_Z 0). rewrite <- Zlt_Qlt. lia.
Qed.

Lemma Q_of_nat_le (a b : nat) : (a <= b)%nat -> Q_of_nat a <= Q_of_nat b.
Proof.
  intros H. unfold Q_of_nat. rewrite <- Zle_Qle. lia.
Qed.

(** The ratio of two counters, the first at most the second, as a
    percentage. *)
Lemma percentage_bounds (a b : nat) :
  (a <= b)%nat -> (0 < b)%nat ->
  0 <= Q_of_nat a / Q_of_nat b * 100 /\ Q_of_nat a / Q_of_nat b * 100 <= 100.
Proof.
  intros Hab Hb.
  pose proof (Q_of_nat_nonneg a) as Ha0.
  pose proof (Q_of_nat_pos b Hb) as Hb0.
  pose proof (Q_of_nat_le a b Hab) as Hle.
  assert (H0 : 0 <= Q_of_nat a / Q_of_nat b) by (apply Qle_shift_div_l; lra).
  assert (H1 : Q_of_nat a / Q_of_nat b <= 1) by (apply Qle_shift_div_r; lra).
  split; lra.
Qed.

(** ** The counters of the replay *)

Lemma replay_move_inv (env : Chess) (c : Color) (st st' : Replay) (m : Move) :
  outcome (replay_move env c st m) = inr st' ->
  board st' = push (board st) m
  /\ total_moves st' = S (total_moves st)
  /\ (best_moves st <= best_moves st' <= S (best_moves st))%nat
  /\ (answers_for_side_to_move env -> best_moves st' = best_moves st).
Proof.
  unfold replay_move.
  destruct (_ || _).
  - intros H. injection H as <-. cbn. repeat split; try lia.
  - unfold ask. rewrite !outcome_bind. cbn [outcome emit snd].
    destruct (get_best_move env (push (board st) m)) as [s | |] eqn:E;
      cbn; intros H; try discriminate; injection H as <-; cbn.
    + repeat split; try (destruct (String.eqb s (uci m)); lia).
      intros Hlegal. destruct (String.eqb_spec s (uci m)) as [-> | _]; [|reflexivity].
      now destruct (Hlegal (board st) m).
    + repeat split; lia.
Qed.

Lemma replay_move_raises (env : Chess) (c : Color) (st : Replay) (m : Move) (e : Exn) :
  outcome (replay_move env c st m) = inl e -> e = StockfishException.
Proof.
  unfold replay_move.
  destruct (_ || _); [discriminate|].
  unfold ask. rewrite !outcome_bind. cbn [outcome emit snd].
  destruct (get_best_move env _); cbn; intros H; try discriminate.
  now injection H as <-.
Qed.

(** The matched counter never exceeds the counter of moves, and stays 0
    against an engine that answers for the side to move. *)
Lemma replay_counters (env : Chess) (c : Color) (text : string) (st : Replay) :
  outcome (replay env c text) = inr st ->
  (best_moves st <= total_moves st)%nat
  /\ (answers_for_side_to_move env -> best_moves st = 0%nat).
Proof.
  unfold replay. destruct (truthy text).
  - destruct (read_game env text) as [g |]; [|discriminate].
    apply (foldM_keeps (replay_move env c)
             (fun s => (best_moves s <= total_moves s)%nat
                       /\ (answers_for_side_to_move env -> best_moves s = 0%nat))).
    + intros s a s' [Hle Hz] H.
      apply replay_move_inv in H as (_ & Ht & Hb & Hk).
      split; [lia|]. intros Hlegal. rewrite (Hk Hlegal). auto.
    + cbn. split; [lia | reflexivity].
  - intros H. injection H as <-. cbn. split; [lia | reflexivity].
Qed.

Lemma foldM_replay_total (env : Chess) (c : Color) (moves : list Move) :
  forall st st',
    outcome (foldM (replay_move env c) moves st) = inr st' ->
    total_moves st' = (total_moves st + length moves)%nat.
Proof.
  induction moves as [| m l IH]; intros st st' H; cbn [foldM] in H.
  - injection H as <-. cbn. lia.
  - rewrite outcome_bind in H.
    destruct (outcome (replay_move env c st m)) as [e | s1] eqn:E; [discriminate|].
    apply replay_move_inv in E as (_ & Ht & _). apply IH in H.
    cbn [length]. lia.
Qed.

(** The counter of moves counts every move of the game, whoever made it. *)
Lemma replay_total (env : Chess) (c : Color) (game : RawGame) (st : Replay) :
  outcome (replay env c (pgn_text_of game)) = inr st ->
  total_moves st = plies env game.
Proof.
  unfold replay, plies. destruct (truthy (pgn_text_of game)).
  - destruct (read_game env (pgn_text_of game)) as [g |]; [|discriminate].
    intros H. apply foldM_replay_total in H. exact H.
  - intros H. now injection H as <-.
Qed.

Lemma replay_raises (env : Chess) (c : Color) (text : string) (e : Exn) :
  outcome (replay env c text) = inl e -> e = StockfishException \/ e = AttributeError.
Proof.
  unfold replay. destruct (truthy text); [|discriminate].
  destruct (read_game env text) as [g |].
  - intros H. left. revert H.
    apply (foldM_raises (replay_move env c) (fun e => e = StockfishException)).
    intros s a e0. apply replay_move_raises.
  - intros H. injection H as <-. now right.
Qed.

(** Line 67 returns a number whatever the counters are. *)
Lemma accuracy_returns (best total : nat) :
  exists q, accuracy best total = ret q
            /\ (total = 0%nat -> q = 0)
            /\ ((best <= total)%nat -> 0 <= q <= 100)
            /\ (best = 0%nat -> q == 0).
Proof.
  destruct total as [| n].
  - exists 0. cbn. repeat split; intros; lra.
  - exists (round2 (Q_of_nat best / Q_of_nat (S n) * 100)).
    split; [reflexivity|]. split; [discriminate|]. split.
    + intros Hle. destruct (percentage_bounds best (S n) Hle) as [H0 H1]; [lia|].
      now apply round2_bounds.
    + intros ->. apply round2_zero. unfold Q_of_nat at 1. cbn [Z.of_nat].
      unfold Qdiv. change (inject_Z 0) with 0. lra.
Qed.

(** ** analyze_game_process_safe, step by step *)

Lemma outcome_ret {A} (a : A) : outcome (ret a) = inr a.
Proof. reflexivity. Qed.

Lemma outcome_raise {A} (e : Exn) : outcome (@raise A e) = inl e.
Proof. reflexivity. Qed.

Lemma outcome_emit (ev : Event) : outcome (emit ev) = inr tt.
Proof. reflexivity. Qed.

Ltac run :=
  repeat (progress (cbn [getitem];
                    rewrite ?outcome_bind, ?outcome_ret, ?outcome_raise, ?outcome_emit;
                    cbv beta iota)).

Lemma analyze_returns (env : Chess) (game : RawGame) (uname path : string)
    (r : GameResult) :
  outcome (analyze_game_process_safe env (game, uname, path)) = inr r ->
  exists w b st u,
    engine_starts env path = true
    /\ white game = Some w /\ black game = Some b /\ game_url game = Some u
    /\ outcome (replay env (user_color_of w uname) (pgn_text_of game)) = inr st
    /\ accuracy (best_moves st) (total_moves st) = ret (precisao r)
    /\ oponente r = opponent_of w b uname
    /\ resultado r = result_of w b uname
    /\ url r = u.
Proof.
  unfold analyze_game_process_safe. run.
  destruct (engine_starts env path); run; [|discriminate].
  destruct (black game) as [b |]; run; [|discriminate].
  destruct (white game) as [w |]; run; [|discriminate].
  destruct (outcome (replay env (user_color_of w uname) (pgn_text_of game)))
    as [e | st] eqn:Hst; [discriminate|].
  destruct (accuracy_returns (best_moves st) (total_moves st)) as (q & Hq & _).
  rewrite Hq. run.
  destruct (game_url game) as [u |]; run; [|discriminate].
  intros H. injection H as <-. cbn.
  exists w, b, st, u. repeat split; auto.
Qed.

Lemma analyze_raises (env : Chess) (game : RawGame) (uname path : string) (e : Exn) :
  outcome (analyze_game_process_safe env (game, uname, path)) = inl e ->
  e = OSError \/ (exists key, e = KeyError key)
  \/ e = StockfishException \/ e = AttributeError.
Proof.
  unfold analyze_game_process_safe. run.
  destruct (engine_starts env path); run;
    [|intros H; injection H as <-; now left].
  destruct (black game) as [b |]; run;
    [|intros H; injection H as <-; right; left; eauto].
  destruct (white game) as [w |]; run;
    [|intros H; injection H as <-; right; left; eauto].
  destruct (outcome (replay env (user_color_of w uname) (pgn_text_of game)))
    as [e1 | st] eqn:Hst.
  - intros H. injection H as <-. apply replay_raises in Hst. tauto.
  - destruct (accuracy_returns (best_moves st) (total_moves st)) as (q & Hq & _).
    rewrite Hq. run.
    destruct (game_url game) as [u |]; run; intros H; [discriminate|].
    injection H as <-. right; left; eauto.
Qed.

(** The book engine never repeats the last move. *)
Lemma book_answers_for_side_to_move : answers_for_side_to_move demo_chess.
Proof.
  intros b m. cbn. unfold book. cbn [push move_stack]. rewrite rev_unit.
  destruct (String.eqb_spec (uci m) "e2e4") as [-> | _]; [discriminate|].
  destruct (String.eqb_spec (uci m) "e7e5") as [-> | _]; [discriminate|].
  destruct (String.eqb_spec (uci m) "g1f3") as [-> | _]; discriminate.
Qed.

(** ** Accuracy *)

(** The engine is asked after a move and its answer compared with that
    move: an engine that answers for the side to move is never matched, and
    every produced accuracy is 0. *)
Lemma accuracy_zero_against_legal_engine (env : Chess) (game : RawGame)
    (uname path : string) (r : GameResult) :
  answers_for_side_to_move env ->
  outcome (analyze_game_process_safe env (game, uname, path)) = inr r ->
  precisao r == 0.
Proof.
  intros Hlegal H.
  apply analyze_returns in H as (w & b & st & u & _ & _ & _ & _ & Hst & Hacc & _).
  apply replay_counters in Hst as [_ Hzero].
  destruct (accuracy_returns (best_moves st) (total_moves st)) as (q & Hq & _ & _ & Hq0).
  rewrite Hq in Hacc. injection Hacc as <-.
  apply Hq0. now apply Hzero.
Qed.

(** C3: the analysis never raises ZeroDivisionError; the accuracy of a
    produced result lies in [0,100]; it is 0 for a game without moves; and,
    the engine answering for the side to move, it is 0 when no move of the
    game was made on the target player's turn. *)
Theorem accuracy_within_bounds (env : Chess) (game : RawGame) (uname path : string) :
  outcome (analyze_game_process_safe env (game, uname, path)) <> inl ZeroDivisionError
  /\ forall r,
       outcome (analyze_game_process_safe env (game, uname, path)) = inr r ->
       0 <= precisao r <= 100
       /\ (plies env game = 0%nat -> precisao r == 0)
       /\ (answers_for_side_to_move env ->
           target_moves env game uname = 0%nat -> precisao r == 0).
Proof.
  split.
  - intros H. apply analyze_raises in H as [H | [[key H] | [H | H]]]; discriminate.
  - intros r H.
    pose proof (fun Hlegal => accuracy_zero_against_legal_engine env game uname path r
                                Hlegal H) as Hlegal0.
    apply analyze_returns in H as (w & b & st & u & _ & _ & _ & _ & Hst & Hacc & _).
    pose proof (replay_total env _ game st Hst) as Htotal.
    apply replay_counters in Hst as [Hle _].
    destruct (accuracy_returns (best_moves st) (total_moves st))
      as (q & Hq & Hnone & Hbound & _).
    rewrite Hq in Hacc. injection Hacc as Heq.
    split; [rewrite <- Heq; now apply Hbound|]. split.
    + intros Hplies. rewrite <- Heq, Hnone by congruence. reflexivity.
    + intros Hlegal _. now apply Hlegal0.
Qed.

Lemma accuracy_within_bounds_witness :
  answers_for_side_to_move demo_chess
  /\ target_moves demo_chess alice_unmoved "Alice" = 0%nat
  /\ exists r,
       outcome (analyze_game_process_safe demo_chess (alice_unmoved, "Alice", STOCKFISH_PATH))
       = inr r
       /\ 0 <= precisao r <= 100 /\ precisao r == 0.
Proof.
  split; [exact book_answers_for_side_to_move|]. split; [reflexivity|].
  eexists. split; [vm_compute; reflexivity|].
  destruct (proj2 (accuracy_within_bounds demo_chess alice_unmoved "Alice" STOCKFISH_PATH)
              _ eq_refl) as (Hb & _ & Hz).
  split; [exact Hb|].
  apply Hz; [exact book_answers_for_side_to_move | reflexivity].
Defined.

(** ** The suspicion score *)

Lemma sum_precisao_fold_right (jogos : list GameResult) (a : Q) :
  fold_left (fun acc j => acc + precisao j) jogos a
  == a + fold_right (fun j acc => precisao j + acc) 0 jogos.
Proof.
  revert a. induction jogos as [| j l IH]; intros a; cbn.
  - lra.
  - rewrite IH. lra.
Qed.

(** The scorer returns False for the empty batch, without a score. *)
Example avaliar_suspeita_empty : avaliar_suspeita [] = false.
Proof. reflexivity. Qed.

(** All games won with accuracy 100: score 100, suspicious. *)
Example avaliar_suspeita_perfect :
  let jogo := {| oponente := "bob"; resultado := "win"; precisao := 100;
                 url := "https://www.chess.com/game/live/1" |} in
  score [jogo; jogo] == 100 /\ avaliar_suspeita [jogo; jogo] = true.
Proof. split; reflexivity. Qed.

(** ** Order of the results *)





(** ** Selection of the work units *)

Lemma scan_games_full (uname : string) (games : list RawGame) (partidas : list WorkUnit) :
  (max_partidas <= length partidas)%nat -> scan_games uname games partidas = partidas.
Proof.
  intros H. destruct games as [| g rest]; [reflexivity|]. cbn [scan_games].
  apply Nat.leb_le in H. now rewrite H.
Qed.

Lemma scan_games_skip (uname : string) (game : RawGame) (rest : list RawGame)
    (partidas : list WorkUnit) :
  selects uname game = false ->
  scan_games uname (game :: rest) partidas = scan_games uname rest partidas.
Proof.
  intros H. cbn [scan_games]. rewrite H.
  destruct (max_partidas <=? length partidas)%nat eqn:E; [|reflexivity].
  apply Nat.leb_le in E. now rewrite scan_games_full.
Qed.

Lemma scan_games_drop (uname : string) (game : RawGame) (before after : list RawGame)
    (partidas : list WorkUnit) :
  selects uname game = false ->
  scan_games uname (before ++ game :: after) partidas
  = scan_games uname (before ++ after) partidas.
Proof.
  intros H. revert partidas.
  induction before as [| g l IH]; intros partidas; cbn [app].
  - now apply scan_games_skip.
  - cbn [scan_games]. destruct (max_partidas <=? length partidas)%nat; [reflexivity|].
    apply IH.
Qed.

Lemma selects_needs_both_sides (uname : string) (game : RawGame) :
  white game = None \/ black game = None -> selects uname game = false.
Proof.
  unfold selects. intros [H | H]; rewrite H; [reflexivity|].
  now destruct (white game).
Qed.

Lemma scan_games_selected (uname : string) (games : list RawGame) :
  forall partidas,
    Forall (selected uname) partidas ->
    Forall (selected uname) (scan_games uname games partidas).
Proof.
  induction games as [| g rest IH]; intros partidas H; cbn [scan_games]; [exact H|].
  destruct (max_partidas <=? length partidas)%nat; [exact H|].
  apply IH. destruct (selects uname g) eqn:E; [|exact H].
  apply Forall_app. split; [exact H|]. constructor; [exact E | constructor].
Qed.

Lemma scan_archives_selected (net : Archive) (uname : string) (archives : list string) :
  forall partidas,
    Forall (selected uname) partidas ->
    Forall (selected uname) (scan_archives net uname archives partidas).
Proof.
  induction archives as [| a rest IH]; intros partidas H; cbn [scan_archives]; [exact H|].
  pose proof (scan_games_selected uname (fetch_games_from_archive net a) partidas H) as H1.
  destruct (max_partidas <=? _)%nat; [exact H1 | now apply IH].
Qed.

(** C10: a record without a "white" or a "black" entry is passed over by
    the scan, whose result is the one it has without the record; no work
    unit of a request holds such a record. *)
Theorem record_without_side_is_skipped (uname : string) (game : RawGame) :
  white game = None \/ black game = None ->
  (forall before after partidas,
      scan_games uname (before ++ game :: after) partidas
      = scan_games uname (before ++ after) partidas)
  /\ (forall net u, In u (partidas_of net uname) -> fst (fst u) <> game).
Proof.
  intros H. apply (selects_needs_both_sides uname) in H. split.
  - intros before after partidas. now apply scan_games_drop.
  - intros net u Hin Heq.
    pose proof (scan_archives_selected net uname (rev (fetch_archives net uname)) []
                  (Forall_nil _)) as Hall.
    rewrite Forall_forall in Hall. specialize (Hall u Hin).
    unfold selected in Hall. rewrite Heq in Hall. congruence.
Qed.

Lemma record_without_side_is_skipped_witness :
  (white alice_alone = None \/ black alice_alone = None)
  /\ scan_games "Alice" ([alice_white] ++ alice_alone :: [alice_black]) []
     = scan_games "Alice" ([alice_white] ++ [alice_black]) []
  /\ partidas_of (one_period [alice_white; alice_alone; alice_black]) "Alice"
     = [(alice_white, "Alice", STOCKFISH_PATH); (alice_black, "Alice", STOCKFISH_PATH)].
Proof.
  split; [right; reflexivity|]. split.
  - apply (record_without_side_is_skipped "Alice" alice_alone); right; reflexivity.
  - reflexivity.
Defined.

(** ** Records without move text *)

Lemma selects_sides (uname : string) (game : RawGame) :
  selects uname game = true -> exists w b, white game = Some w /\ black game = Some b.
Proof.
  unfold selects. destruct (white game) as [w |], (black game) as [b |];
    try discriminate. eauto.
Qed.

(** C5, at the record of a game abandoned before any move: it carries the
    player's handle and no move text, it becomes the one work unit of the
    request, its analysis returns a result of accuracy 0 without a query to
    the engine, and the report counts it. *)
Lemma record_without_moves_is_analyzed :
  selects "Alice" alice_no_pgn = true
  /\ pgn alice_no_pgn = None
  /\ partidas_of (one_period [alice_no_pgn]) "Alice"
     = [(alice_no_pgn, "Alice", STOCKFISH_PATH)]
  /\ analisar_usuario demo_chess (one_period [alice_no_pgn]) lifo_pool "Alice"
     = ([EngineStart STOCKFISH_PATH],
        relatorio "Alice" 1
          [{| oponente := "bob"; resultado := "win"; precisao := 0;
              url := "https://www.chess.com/game/live/3" |}]
          false).
Proof.
  repeat split.
Qed.

(** ** Engine sessions *)

Lemma trace_ret {A} (a : A) : trace (ret a) = [].
Proof. reflexivity. Qed.

Lemma trace_raise {A} (e : Exn) : trace (@raise A e) = [].
Proof. reflexivity. Qed.

Lemma Forall_trace_bind {A B} (P : Event -> Prop) (m : M A) (k : A -> M B) :
  Forall P (trace m) -> (forall a, Forall P (trace (k a))) -> Forall P (trace (bind m k)).
Proof.
  intros Hm Hk. rewrite trace_bind. apply Forall_app. split; [exact Hm|].
  destruct (outcome m); [constructor | apply Hk].
Qed.

Lemma foldM_trace {A S} (P : Event -> Prop) (f : S -> A -> M S) :
  (forall s a, Forall P (trace (f s a))) ->
  forall l s, Forall P (trace (foldM f l s)).
Proof.
  intros Hf l. induction l as [| a l IH]; intros s; cbn [foldM].
  - constructor.
  - apply Forall_trace_bind; [apply Hf | apply IH].
Qed.

Lemma replay_queries_only (env : Chess) (c : Color) (text : string) :
  Forall query_only (trace (replay env c text)).
Proof.
  unfold replay. destruct (truthy text); [|constructor].
  destruct (read_game env text) as [g |]; [|constructor].
  apply foldM_trace. intros s a. unfold replay_move.
  destruct (_ || _); [constructor|].
  apply Forall_trace_bind.
  - unfold ask. apply Forall_trace_bind.
    + repeat constructor.
    + intros _. destruct (get_best_move env _); constructor.
  - intros best. constructor.
Qed.

Lemma sessions_none (t : list Event) : Forall query_only t -> sessions t = 0%nat.
Proof.
  unfold sessions. induction 1 as [| ev t Hev _ IH]; [reflexivity|].
  cbn. unfold query_only in Hev. now rewrite Hev.
Qed.

(** When the binary does not start, the analysis ends there: no engine
    process exists and the unit fails with OSError. *)
Lemma analyze_without_engine (env : Chess) (game : RawGame) (uname path : string) :
  engine_starts env path = false ->
  analyze_game_process_safe env (game, uname, path) = ([], inl OSError).
Proof.
  intros H. unfold analyze_game_process_safe. now rewrite H.
Qed.

(** When the binary starts, the analysis begins by creating an engine, and
    creates no other. *)
Lemma analyze_starts_engine (env : Chess) (u : WorkUnit) :
  engine_starts env (snd u) = true ->
  exists rest,
    trace (analyze_game_process_safe env u) = EngineStart (snd u) :: rest
    /\ sessions rest = 0%nat.
Proof.
  destruct u as [[game uname] path]. cbn [snd]. intros Hs.
  unfold analyze_game_process_safe. rewrite Hs.
  rewrite trace_bind. cbn [trace emit fst outcome snd app].
  eexists. split; [reflexivity|]. apply sessions_none.
  apply Forall_trace_bind; [destruct (black game); constructor|].
  intros b. apply Forall_trace_bind; [destruct (white game); constructor|].
  intros w. apply Forall_trace_bind; [apply replay_queries_only|].
  intros st. apply Forall_trace_bind.
  - destruct (accuracy_returns (best_moves st) (total_moves st)) as (q & Hq & _).
    rewrite Hq. constructor.
  - intros q. apply Forall_trace_bind; [destruct (game_url game); constructor|].
    intros url. constructor.
Qed.

Lemma analyze_sessions (env : Chess) (u : WorkUnit) :
  sessions (trace (analyze_game_process_safe env u))
  = if engine_starts env (snd u) then 1%nat else 0%nat.
Proof.
  destruct (engine_starts env (snd u)) eqn:Hs.
  - destruct (analyze_starts_engine env u Hs) as (rest & -> & Hrest).
    unfold sessions in *. cbn. now rewrite Hrest.
  - destruct u as [[game uname] path]. cbn [snd] in Hs.
    now rewrite analyze_without_engine.
Qed.

Lemma units_from_incl (pool : Pool) (w : nat) (partidas : list WorkUnit) (u : WorkUnit) :
  forall i, In u (units_from pool w i partidas) -> In u partidas.
Proof.
  induction partidas as [| v l IH]; intros i H; cbn [units_from] in H; [contradiction|].
  destruct (worker_of pool i =? w)%nat.
  - destruct H as [-> | H]; [now left | right; now apply (IH (S i))].
  - right. now apply (IH (S i)).
Qed.

(** C6, at a batch of two units run by one worker: the worker starts two
    engine sessions, one for each unit. *)
Lemma one_worker_starts_two_engines :
  units_of_worker lifo_pool 0
    [(alice_white, "Alice", STOCKFISH_PATH); (alice_black, "Alice", STOCKFISH_PATH)]
  = [(alice_white, "Alice", STOCKFISH_PATH); (alice_black, "Alice", STOCKFISH_PATH)]
  /\ sessions_of_worker demo_chess lifo_pool 0
       [(alice_white, "Alice", STOCKFISH_PATH); (alice_black, "Alice", STOCKFISH_PATH)]
     = 2%nat
  /\ sessions_of_worker demo_chess lifo_pool 0
       [(alice_white, "Alice", STOCKFISH_PATH); (alice_black, "Alice", STOCKFISH_PATH)]
     <> 1%nat.
Proof.
  split; [reflexivity|]. split; [reflexivity | discriminate].
Qed.

(** C6 as the code has it: the analysis of every unit creates its own
    engine session as its first step and creates no other; when the binary
    does not start it creates none and fails with OSError.  So with a binary
    that starts, a worker creates as many sessions as it runs units. *)
Theorem one_engine_session_per_unit (env : Chess) (pool : Pool) (w : nat)
    (partidas : list WorkUnit) :
  (forall u, engine_starts env (snd u) = true ->
     exists rest,
       trace (analyze_game_process_safe env u) = EngineStart (snd u) :: rest
       /\ sessions rest = 0%nat)
  /\ (forall u, engine_starts env (snd u) = false ->
       analyze_game_process_safe env u = ([], inl OSError))
  /\ ((forall u, In u partidas -> engine_starts env (snd u) = true) ->
      sessions_of_worker env pool w partidas = length (units_of_worker pool w partidas)).
Proof.
  split; [apply analyze_starts_engine|]. split.
  - intros [[game uname] path] Hs. now apply analyze_without_engine.
  - intros Hall. unfold sessions_of_worker.
    assert (Hsub : forall u, In u (units_of_worker pool w partidas) ->
                             engine_starts env (snd u) = true).
    { intros u Hu. apply Hall. now apply (units_from_incl pool w partidas u 0). }
    induction (units_of_worker pool w partidas) as [| u l IH]; [reflexivity|].
    cbn [map length]. unfold list_sum in *. cbn [fold_right].
    rewrite analyze_sessions, (Hsub u) by now left.
    rewrite IH; [reflexivity|]. intros v Hv. apply Hsub. now right.
Qed.

Lemma one_engine_session_per_unit_witness :
  let partidas := [(alice_white, "Alice", STOCKFISH_PATH);
                   (alice_no_url, "Alice", STOCKFISH_PATH)] in
  (forall u, In u partidas -> engine_starts demo_chess (snd u) = true)
  /\ sessions_of_worker demo_chess lifo_pool 0 partidas = 2%nat
  /\ engine_starts no_engine STOCKFISH_PATH = false
  /\ analyze_game_process_safe no_engine (alice_white, "Alice", STOCKFISH_PATH)
     = ([], inl OSError).
Proof.
  cbv zeta.
  assert (Hall : forall u,
             In u [(alice_white, "Alice", STOCKFISH_PATH);
                   (alice_no_url, "Alice", STOCKFISH_PATH)] ->
             engine_starts demo_chess (snd u) = true) by reflexivity.
  destruct (one_engine_session_per_unit demo_chess lifo_pool 0
              [(alice_white, "Alice", STOCKFISH_PATH);
               (alice_no_url, "Alice", STOCKFISH_PATH)]) as (_ & _ & Hcount).
  destruct (one_engine_session_per_unit no_engine lifo_pool 0 []) as (_ & Hnone & _).
  split; [exact Hall|]. split; [now rewrite (Hcount Hall)|].
  split; [reflexivity|].
  exact (Hnone (alice_white, "Alice", STOCKFISH_PATH) eq_refl).
Defined.

(** ** Collection of the results *)

Lemma gather_successes (futures : list (M GameResult)) :
  forall detalhes, gather futures detalhes = (detalhes ++ successes futures)%list.
Proof.
  induction futures as [| f rest IH]; intros detalhes; cbn [gather successes].
  - now rewrite app_nil_r.
  - destruct (outcome f) as [e | r]; rewrite IH; [reflexivity|].
    now rewrite <- app_assoc.
Qed.

Lemma successes_app (l l' : list (M GameResult)) :
  successes (l ++ l') = (successes l ++ successes l')%list.
Proof.
  induction l as [| f l IH]; [reflexivity|]. cbn [app successes].
  destruct (outcome f); rewrite IH; reflexivity.
Qed.

Lemma successes_perm (l l' : list (M GameResult)) :
  Permutation l l' -> Permutation (successes l) (successes l').
Proof.
  induction 1 as [| f l l' _ IH | f g l | l l' l'' _ IH1 _ IH2]; cbn [successes].
  - constructor.
  - destruct (outcome f); [exact IH | now constructor].
  - destruct (outcome f), (outcome g); try reflexivity. constructor.
  - now transitivity (successes l').
Qed.

Lemma successes_all (env : Chess) (partidas : list WorkUnit) :
  Forall (succeeds env) partidas ->
  length (successes (submit_all env partidas)) = length partidas.
Proof.
  induction 1 as [| u l [r Hr] _ IH]; [reflexivity|].
  cbn [submit_all map successes]. rewrite Hr. cbn [length]. f_equal. exact IH.
Qed.

Lemma successes_In (env : Chess) (partidas : list WorkUnit) (v : WorkUnit)
    (r : GameResult) :
  In v partidas -> outcome (analyze_game_process_safe env v) = inr r ->
  In r (successes (submit_all env partidas)).
Proof.
  intros Hin Hr. induction partidas as [| u l IH]; [contradiction|].
  cbn [submit_all map successes]. destruct Hin as [-> | Hin].
  - rewrite Hr. now left.
  - destruct (outcome (analyze_game_process_safe env u)); [|right]; now apply IH.
Qed.

(** What the request collects is, up to order, the results of the units
    whose analysis returned. *)
Lemma collected_results (env : Chess) (pool : Pool) (partidas : list WorkUnit) :
  fair pool ->
  Permutation (gather (as_completed pool (submit_all env partidas)) [])
              (successes (submit_all env partidas)).
Proof.
  intros Hfair. rewrite gather_successes. cbn [app].
  apply successes_perm, Hfair.
Qed.

Lemma lifo_pool_fair : fair lifo_pool.
Proof.
  intros futures. cbn. apply Permutation_sym, Permutation_rev.
Qed.

(** C7: when the analysis of one of N submitted units raises and the
    others return, the request collects N-1 results, among them the result
    of every other unit, and answers with the report of these N-1 games. *)
Theorem one_failure_drops_one_result (env : Chess) (pool : Pool)
    (before after : list WorkUnit) (u : WorkUnit) (e : Exn) :
  fair pool ->
  outcome (analyze_game_process_safe env u) = inl e ->
  Forall (succeeds env) (before ++ after) ->
  let partidas := (before ++ u :: after)%list in
  let detalhes := gather (as_completed pool (submit_all env partidas)) [] in
  length detalhes = (length partidas - 1)%nat
  /\ (forall v r, In v (before ++ after) ->
        outcome (analyze_game_process_safe env v) = inr r -> In r detalhes)
  /\ (forall net uname,
        fetch_archives net uname <> [] -> partidas_of net uname = partidas ->
        (before ++ after)%list <> [] ->
        snd (analisar_usuario env net pool uname)
        = relatorio uname (length partidas - 1) detalhes (avaliar_suspeita detalhes)).
Proof.
  intros Hfair Hu Hall partidas detalhes.
  pose proof (collected_results env pool partidas Hfair) as Hperm.
  fold detalhes in Hperm.
  assert (Hsucc : successes (submit_all env partidas)
                  = successes (submit_all env (before ++ after))).
  { unfold partidas, submit_all. rewrite !map_app, !successes_app.
    cbn [map successes]. now rewrite Hu. }
  assert (Hlen : length detalhes = (length partidas - 1)%nat).
  { rewrite (Permutation_length Hperm), Hsucc, (successes_all env _ Hall).
    unfold partidas. rewrite !length_app. cbn [length]. lia. }
  split; [exact Hlen|]. split.
  - intros v r Hin Hr. apply (Permutation_in r (Permutation_sym Hperm)).
    rewrite Hsucc. now apply (successes_In env _ v).
  - intros net uname Harch Hpart Hne. unfold analisar_usuario.
    destruct (fetch_archives net uname) as [| a l]; [congruence|].
    rewrite Hpart. fold detalhes. cbn [snd]. rewrite <- Hlen.
    destruct detalhes as [| d ds] eqn:Ed; [|reflexivity].
    exfalso. cbn [length] in Hlen. unfold partidas in Hlen.
    rewrite length_app in Hlen. cbn [length] in Hlen.
    destruct before, after; cbn [length app] in *; try lia. congruence.
Qed.

Lemma one_failure_drops_one_result_witness :
  fair lifo_pool
  /\ outcome (analyze_game_process_safe demo_chess (alice_no_url, "Alice", STOCKFISH_PATH))
     = inl (KeyError "url")
  /\ Forall (succeeds demo_chess)
       [(alice_white, "Alice", STOCKFISH_PATH); (alice_black, "Alice", STOCKFISH_PATH)]
  /\ length (gather (as_completed lifo_pool
                       (submit_all demo_chess
                          [(alice_white, "Alice", STOCKFISH_PATH);
                           (alice_no_url, "Alice", STOCKFISH_PATH);
                           (alice_black, "Alice", STOCKFISH_PATH)])) [])
     = 2%nat.
Proof.
  assert (Hall : Forall (succeeds demo_chess)
                   ([(alice_white, "Alice", STOCKFISH_PATH)]
                    ++ [(alice_black, "Alice", STOCKFISH_PATH)])).
  { repeat (constructor; [eexists; vm_compute; reflexivity|]). constructor. }
  split; [exact lifo_pool_fair|]. split; [reflexivity|]. split; [exact Hall|].
  pose proof (one_failure_drops_one_result demo_chess lifo_pool
                [(alice_white, "Alice", STOCKFISH_PATH)]
                [(alice_black, "Alice", STOCKFISH_PATH)]
                (alice_no_url, "Alice", STOCKFISH_PATH) (KeyError "url")
                lifo_pool_fair eq_refl Hall) as H.
  cbv zeta in H. destruct H as (Hlen & _). exact Hlen.
Defined.

(** ** The answer of the endpoint *)



(** * Further properties of the pipeline *)

(** ** The scan of the archives *)

Lemma firstn_full {A} (n : nat) (l l' : list A) :
  (n <= length l)%nat -> firstn n (l ++ l') = firstn n l.
Proof.
  intros H. rewrite firstn_app.
  replace (n - length l)%nat with 0%nat by lia. cbn. now rewrite app_nil_r.
Qed.

Lemma scan_games_firstn (uname : string) (games : list RawGame) :
  forall partidas,
    (length partidas <= max_partidas)%nat ->
    scan_games uname games partidas
    = firstn max_partidas
        (partidas ++ map (unit_of uname) (filter (selects uname) games)).
Proof.
  induction games as [| g rest IH]; intros partidas Hlen; cbn [scan_games filter map].
  - rewrite app_nil_r. symmetry. now apply firstn_all2.
  - destruct (max_partidas <=? length partidas)%nat eqn:E.
    + apply Nat.leb_le in E. rewrite firstn_full by exact E.
      symmetry. now apply firstn_all2.
    + apply Nat.leb_gt in E. destruct (selects uname g); cbn [map].
      * rewrite IH by (rewrite length_app; cbn; lia).
        now rewrite <- app_assoc.
      * now apply IH.
Qed.

Lemma scan_archives_firstn (net : Archive) (uname : string) (archives : list string) :
  forall partidas,
    (length partidas <= max_partidas)%nat ->
    scan_archives net uname archives partidas
    = firstn max_partidas
        (partidas ++ map (unit_of uname)
                       (filter (selects uname)
                          (concat (map (fetch_games_from_archive net) archives)))).
Proof.
  induction archives as [| a rest IH]; intros partidas Hlen;
    cbn [scan_archives map concat].
  - cbn [filter map]. rewrite app_nil_r. symmetry. now apply firstn_all2.
  - rewrite filter_app, map_app, app_assoc.
    rewrite (scan_games_firstn uname _ partidas Hlen).
    set (found := (partidas ++ map (unit_of uname)
                     (filter (selects uname) (fetch_games_from_archive net a)))%list).
    destruct (max_partidas <=? length (firstn max_partidas found))%nat eqn:E.
    + apply Nat.leb_le in E. rewrite length_firstn in E.
      symmetry. apply firstn_full. lia.
    + apply Nat.leb_gt in E. rewrite length_firstn in E.
      rewrite (firstn_all2 (n := max_partidas) found) by lia.
      apply IH. lia.
Qed.

(** X1: the work units of a request are built from the first ten records
    that carry the handle, in the order of a scan of the archives from the
    newest to the oldest. *)
Theorem partidas_are_first_matches (net : Archive) (uname : string) :
  partidas_of net uname
  = map (unit_of uname)
      (firstn max_partidas (filter (selects uname) (records_newest_first net uname))).
Proof.
  unfold partidas_of, records_newest_first.
  rewrite scan_archives_firstn by apply Nat.le_0_l.
  cbn [app]. now rewrite firstn_map.
Qed.

Lemma partidas_length (net : Archive) (uname : string) :
  (length (partidas_of net uname) <= max_partidas)%nat.
Proof.
  unfold partidas_of. rewrite scan_archives_firstn by apply Nat.le_0_l.
  rewrite length_firstn. lia.
Qed.

Lemma selects_lower (u1 u2 : string) (game : RawGame) :
  lower u1 = lower u2 -> selects u1 game = selects u2 game.
Proof.
  intros H. unfold selects. now rewrite H.
Qed.

Lemma records_of_units (uname : string) (games : list RawGame) :
  map (fun u : WorkUnit => fst (fst u)) (map (unit_of uname) games) = games.
Proof.
  rewrite map_map. cbn. apply map_id.
Qed.

(** X2: the scan does not look at the letter case of the handle: two
    spellings of a handle select the same records, in the same order. *)
Theorem scan_ignores_letter_case (net : Archive) (u1 u2 : string) :
  lower u1 = lower u2 ->
  map (fun u : WorkUnit => fst (fst u)) (partidas_of net u1)
  = map (fun u : WorkUnit => fst (fst u)) (partidas_of net u2).
Proof.
  intros H. unfold partidas_of, fetch_archives. rewrite H.
  rewrite !scan_archives_firstn by apply Nat.le_0_l. cbn [app].
  rewrite <- !firstn_map, !records_of_units.
  f_equal. apply filter_ext. intros g. now apply selects_lower.
Qed.

Lemma scan_ignores_letter_case_witness :
  lower "Alice" = lower "alice"
  /\ map (fun u : WorkUnit => fst (fst u))
       (partidas_of (one_period [alice_white; strangers; alice_black]) "Alice")
     = [alice_white; alice_black]
  /\ map (fun u : WorkUnit => fst (fst u))
       (partidas_of (one_period [alice_white; strangers; alice_black]) "alice")
     = [alice_white; alice_black].
Proof.
  split; [reflexivity|]. split; [reflexivity|].
  rewrite <- (scan_ignores_letter_case
                (one_period [alice_white; strangers; alice_black]) "Alice" "alice"
                eq_refl).
  reflexivity.
Defined.

Lemma successes_length (futures : list (M GameResult)) :
  (length (successes futures) <= length futures)%nat.
Proof.
  induction futures as [| f l IH]; [apply Nat.le_refl|]. cbn [successes length].
  destruct (outcome f); cbn [length]; lia.
Qed.

(** X3: a report counts at least one game and at most ten, and never more
    games than work units were selected. *)
Theorem report_counts_at_most_ten (env : Chess) (net : Archive) (pool : Pool)
    (uname usuario : string) (n : nat) (detalhes : list GameResult) (suspeito : bool) :
  fair pool ->
  snd (analisar_usuario env net pool uname) = relatorio usuario n detalhes suspeito ->
  (1 <= n <= length (partidas_of net uname))%nat /\ (n <= max_partidas)%nat.
Proof.
  intros Hfair H. unfold analisar_usuario in H.
  destruct (fetch_archives net uname) as [| a l]; [discriminate|]. cbn [snd] in H.
  pose proof (collected_results env pool (partidas_of net uname) Hfair) as Hperm.
  apply Permutation_length in Hperm.
  pose proof (successes_length (submit_all env (partidas_of net uname))) as Hle.
  unfold submit_all in Hle at 2. rewrite length_map in Hle.
  pose proof (partidas_length net uname) as Hcap.
  destruct (gather _ []) as [| d ds] eqn:E; [discriminate|].
  injection H as _ <- _ _. cbn [length] in *. lia.
Qed.

Lemma report_counts_at_most_ten_witness :
  fair lifo_pool
  /\ (1 <= 2 <= length (partidas_of (one_period [alice_white; alice_no_url; alice_black])
                         "Alice"))%nat
  /\ (2 <= max_partidas)%nat.
Proof.
  split; [exact lifo_pool_fair|].
  exact (report_counts_at_most_ten demo_chess
           (one_period [alice_white; alice_no_url; alice_black]) lifo_pool "Alice"
           _ _ _ _ lifo_pool_fair eq_refl).
Defined.

Lemma filter_none {A} (f : A -> bool) (l : list A) :
  (forall a, In a l -> f a = false) -> filter f l = [].
Proof.
  induction l as [| a l IH]; intros H; [reflexivity|]. cbn [filter].
  rewrite (H a) by now left. apply IH. intros b Hb. apply H. now right.
Qed.

(** X4: when the handle has archives and none of their records carries
    it, no engine is started and the answer is the error "Nenhuma partida
    encontrada para este usuário." *)
Theorem no_record_of_the_handle (env : Chess) (net : Archive) (pool : Pool)
    (uname : string) :
  fair pool ->
  fetch_archives net uname <> [] ->
  (forall game, In game (records_newest_first net uname) -> selects uname game = false) ->
  analisar_usuario env net pool uname
  = ([], erro "Nenhuma partida encontrada para este usuário.").
Proof.
  intros Hfair Harch Hnone. unfold analisar_usuario.
  destruct (fetch_archives net uname) as [| a l] eqn:E; [congruence|].
  assert (Hp : partidas_of net uname = []).
  { unfold partidas_of. rewrite scan_archives_firstn by apply Nat.le_0_l.
    cbn [app]. unfold records_newest_first in Hnone.
    rewrite (filter_none _ _ Hnone). cbn [map]. apply firstn_nil. }
  rewrite Hp. cbn [submit_all map].
  pose proof (Hfair []) as Hperm. apply Permutation_sym, Permutation_nil in Hperm.
  rewrite Hperm. reflexivity.
Qed.

Lemma no_record_of_the_handle_witness :
  fair lifo_pool
  /\ fetch_archives (one_period [strangers]) "Alice" <> []
  /\ analisar_usuario demo_chess (one_period [strangers]) lifo_pool "Alice"
     = ([], erro "Nenhuma partida encontrada para este usuário.").
Proof.
  split; [exact lifo_pool_fair|]. split; [discriminate|].
  apply (no_record_of_the_handle demo_chess (one_period [strangers]) lifo_pool "Alice"
           lifo_pool_fair); [discriminate|].
  intros game [<- | []]. reflexivity.
Defined.

(** ** What the engine is asked *)

Lemma queried_app (t t' : list Event) :
  queried (t ++ t') = (queried t ++ queried t')%list.
Proof.
  induction t as [| ev t IH]; [reflexivity|]. cbn [app queried].
  destruct ev; cbn [app]; now rewrite IH.
Qed.

(** One iteration: a move made on the target's turn is pushed in silence;
    after a move of the opponent the engine is asked about the new
    position, where the target is to move. *)
Lemma replay_move_asks (env : Chess) (c : Color) (st st' : Replay) (m : Move) :
  outcome (replay_move env c st m) = inr st' ->
  queried (trace (replay_move env c st m))
  = (if Color_eqb (turn (board st)) c then [] else [push (board st) m])
  /\ (Color_eqb (turn (board st)) c = false -> turn (push (board st) m) = c)
  /\ (best_moves st' <= best_moves st
                        + (if Color_eqb (turn (board st)) c then 0 else 1))%nat.
Proof.
  unfold replay_move. cbn [push turn].
  destruct c, (turn (board st)); cbn [Color_eqb other andb orb].
  - intros H. injection H as <-. cbn. repeat split; (discriminate || lia).
  - unfold ask. destruct (get_best_move env _) as [s | |]; cbn;
      intros H; try discriminate; injection H as <-; cbn;
      repeat split; try (destruct (String.eqb s (uci m))); lia.
  - unfold ask. destruct (get_best_move env _) as [s | |]; cbn;
      intros H; try discriminate; injection H as <-; cbn;
      repeat split; try (destruct (String.eqb s (uci m))); lia.
  - intros H. injection H as <-. cbn. repeat split; (discriminate || lia).
Qed.

Lemma foldM_replay_asks (env : Chess) (c : Color) (moves : list Move) :
  forall st st',
    outcome (foldM (replay_move env c) moves st) = inr st' ->
    queried (trace (foldM (replay_move env c) moves st))
    = boards_after_opponent_moves c (board st) moves
    /\ (best_moves st' <= best_moves st + opponent_plies c (board st) moves)%nat.
Proof.
  induction moves as [| m l IH]; intros st st' H;
    cbn [foldM opponent_plies boards_after_opponent_moves] in *.
  - injection H as <-. cbn. split; [reflexivity | lia].
  - rewrite outcome_bind in H. rewrite trace_bind, queried_app.
    destruct (outcome (replay_move env c st m)) as [e | s1] eqn:E; [discriminate|].
    destruct (replay_move_asks env c st s1 m E) as (Hq & _ & Hbest).
    apply replay_move_inv in E as (Hboard & _).
    destruct (IH s1 st' H) as (Hlist & Hb). rewrite Hboard in *.
    rewrite Hq, Hlist. split; [reflexivity|].
    destruct (Color_eqb (turn (board st)) c); lia.
Qed.

Lemma boards_after_opponent_moves_length (c : Color) (moves : list Move) :
  forall b,
    length (boards_after_opponent_moves c b moves) = opponent_plies c b moves.
Proof.
  induction moves as [| m l IH]; intros b; [reflexivity|].
  cbn [boards_after_opponent_moves opponent_plies]. rewrite length_app, IH.
  destruct (Color_eqb (turn b) c); reflexivity.
Qed.

Lemma boards_after_opponent_moves_turn (c : Color) (moves : list Move) :
  forall b, Forall (fun p => turn p = c) (boards_after_opponent_moves c b moves).
Proof.
  induction moves as [| m l IH]; intros b; [constructor|].
  cbn [boards_after_opponent_moves]. apply Forall_app. split; [|apply IH].
  destruct (Color_eqb (turn b) c) eqn:E; constructor; [|constructor].
  cbn. destruct (turn b), c; cbn in E |- *; congruence.
Qed.

Lemma trace_emit (ev : Event) : trace (emit ev) = [ev].
Proof. reflexivity. Qed.

Ltac run_trace :=
  repeat (progress (cbn [getitem app];
                    rewrite ?trace_bind, ?trace_ret, ?trace_raise, ?trace_emit,
                      ?outcome_bind, ?outcome_ret, ?outcome_raise, ?outcome_emit;
                    cbv beta iota)).

(** The events of an analysis whose engine starts, on a record with both
    sides: the start of the engine, then the events of the replay. *)
Lemma analyze_trace (env : Chess) (game : RawGame) (uname path : string)
    (w b : Player) :
  engine_starts env path = true ->
  white game = Some w -> black game = Some b ->
  trace (analyze_game_process_safe env (game, uname, path))
  = EngineStart path :: trace (replay env (user_color_of w uname) (pgn_text_of game)).
Proof.
  intros Hs Hw Hb. unfold analyze_game_process_safe. rewrite Hs, Hw, Hb.
  run_trace. f_equal.
  destruct (outcome (replay env (user_color_of w uname) (pgn_text_of game)))
    as [e | st]; [now rewrite app_nil_r|].
  destruct (accuracy_returns (best_moves st) (total_moves st)) as (q & Hq & _).
  rewrite Hq. run_trace.
  destruct (game_url game); run_trace; now rewrite app_nil_r.
Qed.

(** X5: in an analysis that returns a result, the positions put to the
    engine are exactly the positions reached by the opponent's moves, each
    right after the move was pushed and in the order of the game: the engine
    is asked once for every move the opponent made, with the target player
    to move, and never about a move of the target player; queries and
    target moves together are the moves of the game. *)
Theorem engine_is_asked_after_opponent_moves (env : Chess) (game : RawGame)
    (uname path : string) (r : GameResult) (w : Player) (g : Game) :
  outcome (analyze_game_process_safe env (game, uname, path)) = inr r ->
  white game = Some w ->
  truthy (pgn_text_of game) = true ->
  read_game env (pgn_text_of game) = Some g ->
  let user_color := user_color_of w uname in
  let asked := queried (trace (analyze_game_process_safe env (game, uname, path))) in
  asked = boards_after_opponent_moves user_color (game_board g) (mainline_moves g)
  /\ length asked = opponent_plies user_color (game_board g) (mainline_moves g)
  /\ Forall (fun b => turn b = user_color) asked
  /\ (length asked + target_plies user_color (game_board g) (mainline_moves g)
      = length (mainline_moves g))%nat.
Proof.
  intros H Hw Htext Hg user_color asked.
  apply analyze_returns in H as (w0 & b & st & u & Hs & Hw0 & Hb & _ & Hst & _).
  rewrite Hw in Hw0. injection Hw0 as <-.
  assert (Hasked : asked = boards_after_opponent_moves user_color (game_board g)
                             (mainline_moves g)).
  { unfold asked. rewrite (analyze_trace env game uname path w b Hs Hw Hb).
    cbn [queried]. fold user_color in Hst |- *.
    unfold replay in *. rewrite Htext, Hg in *.
    now destruct (foldM_replay_asks env user_color _ _ _ Hst) as (Hlist & _). }
  split; [exact Hasked|]. rewrite Hasked.
  rewrite boards_after_opponent_moves_length.
  split; [reflexivity|]. split; [apply boards_after_opponent_moves_turn|].
  clear. generalize (game_board g).
  induction (mainline_moves g) as [| m l IH]; intros b0; [reflexivity|].
  cbn [opponent_plies target_plies length]. specialize (IH (push b0 m)).
  destruct (Color_eqb (turn b0) user_color); lia.
Qed.

Lemma engine_is_asked_after_opponent_moves_witness :
  let unit := (alice_white, "Alice", STOCKFISH_PATH) in
  truthy (pgn_text_of alice_white) = true
  /\ queried (trace (analyze_game_process_safe demo_chess unit))
     = [push (push starting_board e2e4) e7e5]
  /\ Forall (fun b => turn b = WHITE)
       (queried (trace (analyze_game_process_safe demo_chess unit))).
Proof.
  cbv zeta. split; [reflexivity|].
  pose proof (engine_is_asked_after_opponent_moves demo_chess alice_white
                "Alice" STOCKFISH_PATH _ _ _ eq_refl eq_refl eq_refl eq_refl) as H.
  cbv zeta in H. destruct H as (Hlist & _ & Hall & _).
  split; [exact Hlist | exact Hall].
Defined.

(** ** How an analysis fails *)

(** X7: a record whose move text is not empty and holds no game fails
    with AttributeError once the engine has started, before any query. *)
Theorem unreadable_move_text_fails (env : Chess) (game : RawGame)
    (uname path : string) :
  engine_starts env path = true ->
  white game <> None -> black game <> None ->
  truthy (pgn_text_of game) = true ->
  read_game env (pgn_text_of game) = None ->
  analyze_game_process_safe env (game, uname, path)
  = ([EngineStart path], inl AttributeError).
Proof.
  intros Hs Hw Hb Ht Hnone. unfold analyze_game_process_safe, replay.
  rewrite Hs, Ht, Hnone.
  destruct (white game); [|congruence]. destruct (black game); [|congruence].
  reflexivity.
Qed.

Lemma unreadable_move_text_fails_witness :
  truthy (pgn_text_of alice_blank_pgn) = true
  /\ read_game demo_chess (pgn_text_of alice_blank_pgn) = None
  /\ analyze_game_process_safe demo_chess (alice_blank_pgn, "Alice", STOCKFISH_PATH)
     = ([EngineStart STOCKFISH_PATH], inl AttributeError).
Proof.
  split; [reflexivity|]. split; [reflexivity|].
  apply (unreadable_move_text_fails demo_chess alice_blank_pgn "Alice" STOCKFISH_PATH);
    try discriminate; reflexivity.
Defined.

(** X8: the address of the game is read last: a record without "url"
    goes through the whole replay, with every query to the engine, and only
    then fails with KeyError. *)
Theorem missing_url_fails_after_replay (env : Chess) (game : RawGame)
    (uname path : string) (w b : Player) (st : Replay) :
  engine_starts env path = true ->
  white game = Some w -> black game = Some b ->
  outcome (replay env (user_color_of w uname) (pgn_text_of game)) = inr st ->
  game_url game = None ->
  analyze_game_process_safe env (game, uname, path)
  = (EngineStart path :: trace (replay env (user_color_of w uname) (pgn_text_of game)),
     inl (KeyError "url")).
Proof.
  intros Hs Hw Hb Hst Hu.
  rewrite (surjective_pairing (analyze_game_process_safe env (game, uname, path))).
  change (fst ?m) with (trace m). change (snd ?m) with (outcome m).
  rewrite (analyze_trace env game uname path w b Hs Hw Hb). f_equal.
  unfold analyze_game_process_safe. rewrite Hs, Hw, Hb. run. rewrite Hst.
  destruct (accuracy_returns (best_moves st) (total_moves st)) as (q & Hq & _).
  rewrite Hq. run. rewrite Hu. run. reflexivity.
Qed.

Lemma missing_url_fails_after_replay_witness :
  game_url alice_no_url = None
  /\ outcome (analyze_game_process_safe demo_chess (alice_no_url, "Alice", STOCKFISH_PATH))
     = inl (KeyError "url")
  /\ length (queried (trace (analyze_game_process_safe demo_chess
                               (alice_no_url, "Alice", STOCKFISH_PATH)))) = 1%nat.
Proof.
  split; [reflexivity|].
  rewrite (missing_url_fails_after_replay demo_chess alice_no_url "Alice" STOCKFISH_PATH
             _ _ _ eq_refl eq_refl eq_refl eq_refl eq_refl).
  split; reflexivity.
Defined.

(** ** Whose game it is *)

(** X9: the result names the sides by comparing the handle, as typed,
    with the two usernames.  A handle equal to White's username alone gives
    White's outcome and Black as the opponent; a handle equal to Black's
    alone gives Black's outcome and White as the opponent; a handle equal
    to neither gives Black's outcome and Black as the opponent.  The
    address is that of the record. *)
Theorem attribution_by_exact_handle (env : Chess) (game : RawGame)
    (uname path : string) (r : GameResult) (w b : Player) :
  outcome (analyze_game_process_safe env (game, uname, path)) = inr r ->
  white game = Some w -> black game = Some b ->
  game_url game = Some (url r)
  /\ (username w = uname -> username b <> uname ->
      resultado r = result w /\ oponente r = username b)
  /\ (username b = uname -> username w <> uname ->
      resultado r = result b /\ oponente r = username w)
  /\ (username w <> uname -> username b <> uname ->
      resultado r = result b /\ oponente r = username b).
Proof.
  intros H Hw Hb.
  apply analyze_returns in H as (w0 & b0 & st & u & _ & Hw0 & Hb0 & Hu & _ & _ & Ho & Hr & Hurl).
  rewrite Hw in Hw0. rewrite Hb in Hb0. injection Hw0 as <-. injection Hb0 as <-.
  rewrite Ho, Hr, Hu, Hurl. unfold opponent_of, result_of.
  split; [reflexivity|].
  destruct (String.eqb_spec (username w) uname), (String.eqb_spec (username b) uname);
    repeat split; intros; congruence.
Qed.

Lemma attribution_by_exact_handle_witness :
  exists r,
    outcome (analyze_game_process_safe demo_chess (alice_white, "alice", STOCKFISH_PATH))
    = inr r
    /\ resultado r = "resigned" /\ oponente r = "bob".
Proof.
  eexists. split; [vm_compute; reflexivity|].
  apply (attribution_by_exact_handle demo_chess alice_white "alice" STOCKFISH_PATH
           _ _ _ eq_refl eq_refl eq_refl); discriminate.
Defined.

(** ** Engines that do not start *)

Lemma firstn_incl {A} (n : nat) (l : list A) (x : A) : In x (firstn n l) -> In x l.
Proof.
  revert l. induction n as [| n IH]; intros [| a l] H; cbn in H; try contradiction.
  destruct H as [-> | H]; [now left | right; now apply IH].
Qed.

Lemma partidas_path (net : Archive) (uname : string) (u : WorkUnit) :
  In u (partidas_of net uname) -> snd u = STOCKFISH_PATH /\ snd (fst u) = uname.
Proof.
  unfold partidas_of. rewrite scan_archives_firstn by apply Nat.le_0_l. cbn [app].
  intros H. apply firstn_incl, in_map_iff in H as (g & <- & _). split; reflexivity.
Qed.

Lemma successes_none (futures : list (M GameResult)) :
  Forall (fun f => exists e, outcome f = inl e) futures -> successes futures = [].
Proof.
  induction 1 as [| f l [e He] _ IH]; [reflexivity|].
  cbn [successes]. now rewrite He.
Qed.

(** X10: when the engine binary does not start, every unit fails with
    OSError and a handle that has archives gets the error "Nenhuma partida
    encontrada para este usuário.", whatever its records are. *)
Theorem no_engine_no_report (env : Chess) (net : Archive) (pool : Pool) (uname : string) :
  fair pool ->
  engine_starts env STOCKFISH_PATH = false ->
  fetch_archives net uname <> [] ->
  (forall u, In u (partidas_of net uname) ->
             outcome (analyze_game_process_safe env u) = inl OSError)
  /\ snd (analisar_usuario env net pool uname)
     = erro "Nenhuma partida encontrada para este usuário.".
Proof.
  intros Hfair Hs Harch.
  assert (Hall : forall u, In u (partidas_of net uname) ->
                           outcome (analyze_game_process_safe env u) = inl OSError).
  { intros [[game h] path] Hin. apply partidas_path in Hin as [Hp _]. cbn in Hp.
    subst path. now rewrite analyze_without_engine. }
  split; [exact Hall|].
  unfold analisar_usuario.
  destruct (fetch_archives net uname) as [| a l]; [congruence|]. cbn [snd].
  pose proof (collected_results env pool (partidas_of net uname) Hfair) as Hperm.
  rewrite successes_none in Hperm.
  - apply Permutation_sym, Permutation_nil in Hperm. now rewrite Hperm.
  - unfold submit_all. apply Forall_map, Forall_forall. intros u Hin.
    exists OSError. now apply Hall.
Qed.

Lemma no_engine_no_report_witness :
  fair lifo_pool
  /\ engine_starts no_engine STOCKFISH_PATH = false
  /\ snd (analisar_usuario no_engine (one_period [alice_white; alice_black])
            lifo_pool "Alice")
     = erro "Nenhuma partida encontrada para este usuário.".
Proof.
  split; [exact lifo_pool_fair|]. split; [reflexivity|].
  apply (no_engine_no_report no_engine (one_period [alice_white; alice_black])
           lifo_pool "Alice" lifo_pool_fair eq_refl).
  discriminate.
Defined.

(** ** Engine sessions of a request *)

Lemma sessions_app (t t' : list Event) :
  sessions (t ++ t') = (sessions t + sessions t')%nat.
Proof.
  unfold sessions. now rewrite filter_app, length_app.
Qed.

Lemma sessions_concat (futures : list (M GameResult)) (k : nat) :
  Forall (fun f => sessions (trace f) = k) futures ->
  sessions (concat (map trace futures)) = (k * length futures)%nat.
Proof.
  induction 1 as [| f l Hf _ IH]; [cbn; lia|].
  cbn [map concat length]. rewrite sessions_app, Hf, IH. lia.
Qed.

(** X11: a request whose handle has archives creates one engine for each
    selected work unit when the engine binary starts, whether the unit's
    analysis then returns or fails: as many engines as units, at most ten.
    When the binary does not start, it creates none. *)
Theorem engines_started_by_a_request (env : Chess) (net : Archive) (pool : Pool)
    (uname : string) :
  fair pool ->
  fetch_archives net uname <> [] ->
  (engine_starts env STOCKFISH_PATH = true ->
   sessions (fst (analisar_usuario env net pool uname)) = length (partidas_of net uname)
   /\ (sessions (fst (analisar_usuario env net pool uname)) <= max_partidas)%nat)
  /\ (engine_starts env STOCKFISH_PATH = false ->
      sessions (fst (analisar_usuario env net pool uname)) = 0%nat).
Proof.
  intros Hfair Harch.
  assert (H : sessions (fst (analisar_usuario env net pool uname))
              = ((if engine_starts env STOCKFISH_PATH then 1 else 0)
                 * length (partidas_of net uname))%nat).
  { unfold analisar_usuario.
    destruct (fetch_archives net uname) as [| a l]; [congruence|]. cbn [fst].
    pose proof (Hfair (submit_all env (partidas_of net uname))) as Hperm.
    rewrite (sessions_concat _ (if engine_starts env STOCKFISH_PATH then 1 else 0)%nat).
    - rewrite (Permutation_length Hperm). unfold submit_all. now rewrite length_map.
    - apply (Permutation_Forall (Permutation_sym Hperm)).
      unfold submit_all. apply Forall_map, Forall_forall. intros u Hu.
      rewrite analyze_sessions. apply partidas_path in Hu as [-> _]. reflexivity. }
  split; intros Hs; rewrite Hs in H.
  - rewrite H, Nat.mul_1_l. split; [reflexivity | apply partidas_length].
  - rewrite H. apply Nat.mul_0_l.
Qed.

Lemma engines_started_by_a_request_witness :
  fair lifo_pool
  /\ engine_starts demo_chess STOCKFISH_PATH = true
  /\ sessions (fst (analisar_usuario demo_chess
                      (one_period [alice_white; alice_no_url; strangers; alice_black])
                      lifo_pool "Alice")) = 3%nat
  /\ engine_starts no_engine STOCKFISH_PATH = false
  /\ sessions (fst (analisar_usuario no_engine
                      (one_period [alice_white; alice_no_url; strangers; alice_black])
                      lifo_pool "Alice")) = 0%nat.
Proof.
  split; [exact lifo_pool_fair|]. split; [reflexivity|].
  destruct (engines_started_by_a_request demo_chess
              (one_period [alice_white; alice_no_url; strangers; alice_black])
              lifo_pool "Alice" lifo_pool_fair ltac:(discriminate)) as [Hyes _].
  destruct (engines_started_by_a_request no_engine
              (one_period [alice_white; alice_no_url; strangers; alice_black])
              lifo_pool "Alice" lifo_pool_fair ltac:(discriminate)) as [_ Hno].
  split; [rewrite (proj1 (Hyes eq_refl)); reflexivity|].
  split; [reflexivity | exact (Hno eq_refl)].
Defined.

(** ** Bounds of the score *)

Lemma count_if_le (p : GameResult -> bool) (jogos : list GameResult) :
  (count_if p jogos <= length jogos)%nat.
Proof.
  unfold count_if. apply filter_length_le.
Qed.

Lemma count_if_none (p : GameResult -> bool) (jogos : list GameResult) :
  Forall (fun j => p j = false) jogos -> count_if p jogos = 0%nat.
Proof.
  unfold count_if. induction 1 as [| j l Hj _ IH]; [reflexivity|].
  cbn [filter]. now rewrite Hj.
Qed.

Lemma count_if_all (p : GameResult -> bool) (jogos : list GameResult) :
  Forall (fun j => p j = true) jogos -> count_if p jogos = length jogos.
Proof.
  unfold count_if. induction 1 as [| j l Hj _ IH]; [reflexivity|].
  cbn [filter]. rewrite Hj. cbn [length]. now rewrite IH.
Qed.

Lemma Q_of_nat_S (n : nat) : Q_of_nat (S n) == Q_of_nat n + 1.
Proof.
  unfold Q_of_nat. rewrite Nat2Z.inj_succ, <- Z.add_1_r, inject_Z_plus. reflexivity.
Qed.

Lemma sum_precisao_bounds (jogos : list GameResult) (lo hi : Q) :
  Forall (fun j => lo <= precisao j <= hi) jogos ->
  lo * Q_of_nat (length jogos) <= sum_precisao jogos
  /\ sum_precisao jogos <= hi * Q_of_nat (length jogos).
Proof.
  unfold sum_precisao. rewrite sum_precisao_fold_right.
  induction 1 as [| j l [Hlo Hhi] _ [IHlo IHhi]]; cbn [fold_right length].
  - change (Q_of_nat 0) with 0. split; lra.
  - rewrite Q_of_nat_S. split; nra.
Qed.

Lemma ratio_bounds (x lo hi : Q) (n : nat) :
  (0 < n)%nat -> lo * Q_of_nat n <= x -> x <= hi * Q_of_nat n ->
  lo <= x / Q_of_nat n <= hi.
Proof.
  intros Hn Hlo Hhi. pose proof (Q_of_nat_pos n Hn) as Hpos. split.
  - now apply Qle_shift_div_l.
  - now apply Qle_shift_div_r.
Qed.

Lemma above_90_true (j : GameResult) : 90 < precisao j -> above_90 j = true.
Proof.
  intros H. unfold above_90. destruct (Qle_bool (precisao j) 90) eqn:E; [|reflexivity].
  apply Qle_bool_iff in E. lra.
Qed.

Lemma above_90_false (j : GameResult) : precisao j <= 90 -> above_90 j = false.
Proof.
  intros H. unfold above_90. apply Qle_bool_iff in H. now rewrite H.
Qed.

Lemma ratio_one (n : nat) : (0 < n)%nat -> Q_of_nat n / Q_of_nat n == 1.
Proof.
  intros Hn. pose proof (Q_of_nat_pos n Hn) as Hpos.
  unfold Qdiv. apply Qmult_inv_r. intros H. rewrite H in Hpos. lra.
Qed.

Lemma ratio_zero (n : nat) : Q_of_nat 0 / Q_of_nat n == 0.
Proof.
  unfold Qdiv. change (Q_of_nat 0) with 0. apply Qmult_0_l.
Qed.

(** The three ratios the score weighs, with their ranges. *)
Lemma score_terms (jogos : list GameResult) (lo hi : Q) :
  jogos <> [] ->
  Forall (fun j => lo <= precisao j <= hi) jogos ->
  exists media vitorias altas,
    score jogos == media * (1 # 2) + vitorias * 30 + altas * 20
    /\ lo <= media <= hi
    /\ 0 <= vitorias <= 1
    /\ 0 <= altas <= 1
    /\ vitorias == Q_of_nat (count_if is_win jogos) / Q_of_nat (length jogos)
    /\ altas == Q_of_nat (count_if above_90 jogos) / Q_of_nat (length jogos).
Proof.
  intros Hne Hall.
  assert (Hn : (0 < length jogos)%nat) by (destruct jogos; [congruence | cbn; lia]).
  destruct (sum_precisao_bounds jogos lo hi Hall) as [Hlo Hhi].
  exists (sum_precisao jogos / Q_of_nat (length jogos)),
         (Q_of_nat (count_if is_win jogos) / Q_of_nat (length jogos)),
         (Q_of_nat (count_if above_90 jogos) / Q_of_nat (length jogos)).
  split.
  { unfold score, Qdiv. change (/ 100) with (1 # 100). ring. }
  split; [now apply ratio_bounds|].
  split; [|split; [|split; reflexivity]].
  - apply ratio_bounds; [exact Hn | |].
    + pose proof (Q_of_nat_nonneg (count_if is_win jogos)). lra.
    + pose proof (Q_of_nat_le _ _ (count_if_le is_win jogos)). lra.
  - apply ratio_bounds; [exact Hn | |].
    + pose proof (Q_of_nat_nonneg (count_if above_90 jogos)). lra.
    + pose proof (Q_of_nat_le _ _ (count_if_le above_90 jogos)). lra.
Qed.

(** X12: the score of a batch of percentages lies between 0 and 100. *)
Theorem score_is_a_percentage (jogos : list GameResult) :
  jogos <> [] -> percentages jogos -> 0 <= score jogos <= 100.
Proof.
  intros Hne Hall.
  destruct (score_terms jogos 0 100 Hne Hall)
    as (m & v & h & -> & Hm & Hv & Hh & _).
  split; lra.
Qed.

Lemma score_is_a_percentage_witness :
  two_results <> [] /\ percentages two_results /\ 0 <= score two_results <= 100.
Proof.
  assert (Hne : two_results <> []) by discriminate.
  assert (Hall : percentages two_results).
  { repeat constructor; cbn; discriminate. }
  split; [exact Hne|]. split; [exact Hall|].
  exact (score_is_a_percentage two_results Hne Hall).
Defined.

(** X13: a batch of percentages without a single win is never flagged:
    its score is at most 70. *)
Theorem no_win_no_suspicion (jogos : list GameResult) :
  percentages jogos ->
  Forall (fun j => is_win j = false) jogos ->
  avaliar_suspeita jogos = false /\ (jogos <> [] -> score jogos <= 70).
Proof.
  intros Hall Hnone.
  assert (Hscore : jogos <> [] -> score jogos <= 70).
  { intros Hne.
    destruct (score_terms jogos 0 100 Hne Hall)
      as (m & v & h & -> & Hm & _ & Hh & Hv & _).
    rewrite (count_if_none is_win jogos Hnone), ratio_zero in Hv. lra. }
  split; [|exact Hscore].
  unfold avaliar_suspeita. destruct jogos as [| j l]; [reflexivity|]. cbn [length].
  destruct (Qle_bool 75 (score (j :: l))) eqn:E; [|reflexivity].
  apply Qle_bool_iff in E. assert (score (j :: l) <= 70) by (apply Hscore; discriminate).
  lra.
Qed.

Lemma no_win_no_suspicion_witness :
  percentages lost_results
  /\ avaliar_suspeita lost_results = false /\ score lost_results == 70.
Proof.
  assert (Hall : percentages lost_results).
  { repeat constructor; cbn; discriminate. }
  split; [exact Hall|]. split; [|reflexivity].
  apply (no_win_no_suspicion lost_results Hall). repeat constructor.
Defined.

(** X14: the extremes of the score: a batch of wins with accuracy 100 has
    score 100 and is flagged; a batch without wins and with accuracy 0 has
    score 0 and is not. *)
Theorem score_extremes (jogos : list GameResult) :
  jogos <> [] ->
  (Forall (fun j => is_win j = true /\ precisao j == 100) jogos ->
   score jogos == 100 /\ avaliar_suspeita jogos = true)
  /\ (Forall (fun j => is_win j = false /\ precisao j == 0) jogos ->
      score jogos == 0 /\ avaliar_suspeita jogos = false).
Proof.
  intros Hne.
  assert (Hn : (0 < length jogos)%nat) by (destruct jogos; [congruence | cbn; lia]).
  assert (Hflag : avaliar_suspeita jogos = Qle_bool 75 (score jogos)).
  { unfold avaliar_suspeita. destruct jogos; [congruence | reflexivity]. }
  split; intros Hall.
  - assert (Hscore : score jogos == 100).
    { destruct (score_terms jogos 100 100 Hne) as (m & v & h & -> & Hm & _ & _ & Hv & Hh).
      { eapply Forall_impl; [|exact Hall]. cbn. intros j [_ Hj]. rewrite Hj. lra. }
      rewrite (count_if_all is_win jogos), (ratio_one _ Hn) in Hv
        by (eapply Forall_impl; [|exact Hall]; cbn; tauto).
      rewrite (count_if_all above_90 jogos), (ratio_one _ Hn) in Hh.
      - lra.
      - eapply Forall_impl; [|exact Hall]. cbn. intros j [_ Hj].
        apply above_90_true. rewrite Hj. lra. }
    split; [exact Hscore|]. rewrite Hflag. apply Qle_bool_iff. rewrite Hscore. lra.
  - assert (Hscore : score jogos == 0).
    { destruct (score_terms jogos 0 0 Hne) as (m & v & h & -> & Hm & _ & _ & Hv & Hh).
      { eapply Forall_impl; [|exact Hall]. cbn. intros j [_ Hj]. rewrite Hj. lra. }
      rewrite (count_if_none is_win jogos), ratio_zero in Hv
        by (eapply Forall_impl; [|exact Hall]; cbn; tauto).
      rewrite (count_if_none above_90 jogos), ratio_zero in Hh.
      - lra.
      - eapply Forall_impl; [|exact Hall]. cbn. intros j [_ Hj].
        apply above_90_false. rewrite Hj. lra. }
    split; [exact Hscore|]. rewrite Hflag.
    destruct (Qle_bool 75 (score jogos)) eqn:E; [|reflexivity].
    apply Qle_bool_iff in E. rewrite Hscore in E. lra.
Qed.

Lemma score_extremes_witness :
  perfect_results <> []
  /\ score perfect_results == 100 /\ avaliar_suspeita perfect_results = true.
Proof.
  assert (Hne : perfect_results <> []) by discriminate.
  split; [exact Hne|].
  apply (proj1 (score_extremes perfect_results Hne)).
  repeat constructor.
Defined.

(** A batch whose accuracies are all 0 has a score of at most 30 and is
    not flagged. *)
Lemma zero_accuracy_not_flagged (jogos : list GameResult) :
  Forall (fun j => precisao j == 0) jogos ->
  avaliar_suspeita jogos = false.
Proof.
  intros Hall. unfold avaliar_suspeita.
  destruct jogos as [| j0 l] eqn:Ej; [reflexivity|]. rewrite <- Ej in *.
  assert (Hne : jogos <> []) by (rewrite Ej; discriminate).
  replace (length jogos) with (S (length l)) by (rewrite Ej; reflexivity).
  destruct (score_terms jogos 0 0 Hne) as (m & v & h & Hs & Hm & Hv & _ & _ & Hh).
  { eapply Forall_impl; [|exact Hall]. cbn. intros j Hj. rewrite Hj. lra. }
  rewrite (count_if_none above_90 jogos), ratio_zero in Hh.
  - destruct (Qle_bool 75 (score jogos)) eqn:E; [|reflexivity].
    apply Qle_bool_iff in E. rewrite Hs in E. lra.
  - eapply Forall_impl; [|exact Hall]. cbn. intros j Hj.
    apply above_90_false. rewrite Hj. lra.
Qed.

Lemma successes_origin (env : Chess) (partidas : list WorkUnit) (r : GameResult) :
  In r (successes (submit_all env partidas)) ->
  exists u, In u partidas /\ outcome (analyze_game_process_safe env u) = inr r.
Proof.
  induction partidas as [| u l IH]; cbn [submit_all map successes]; [contradiction|].
  destruct (outcome (analyze_game_process_safe env u)) as [e | r0] eqn:E.
  - intros H. destruct (IH H) as (v & Hv & Hr). exists v. split; [now right | exact Hr].
  - intros [<- | H].
    + exists u. split; [now left | exact E].
    + destruct (IH H) as (v & Hv & Hr). exists v. split; [now right | exact Hr].
Qed.

(** X15: with an engine that answers for the side to move, no request is
    ever answered with a report that flags the player: every accuracy in
    the report is 0. *)
Theorem legal_engine_never_flags (env : Chess) (net : Archive) (pool : Pool)
    (uname usuario : string) (n : nat) (detalhes : list GameResult) (suspeito : bool) :
  fair pool ->
  answers_for_side_to_move env ->
  snd (analisar_usuario env net pool uname) = relatorio usuario n detalhes suspeito ->
  Forall (fun j => precisao j == 0) detalhes /\ suspeito = false.
Proof.
  intros Hfair Hlegal H. unfold analisar_usuario in H.
  destruct (fetch_archives net uname) as [| a l]; [discriminate|]. cbn [snd] in H.
  pose proof (collected_results env pool (partidas_of net uname) Hfair) as Hperm.
  destruct (gather _ []) as [| d ds] eqn:E; [discriminate|].
  injection H as _ _ <- <-.
  assert (Hall : Forall (fun j => precisao j == 0) (d :: ds)).
  { apply Forall_forall. intros r Hr.
    apply (Permutation_in r Hperm), successes_origin in Hr as ([[game h] path] & _ & Hu).
    now apply (accuracy_zero_against_legal_engine env game h path r). }
  split; [exact Hall | now apply zero_accuracy_not_flagged].
Qed.

Lemma legal_engine_never_flags_witness :
  fair lifo_pool /\ answers_for_side_to_move demo_chess
  /\ exists n detalhes,
       snd (analisar_usuario demo_chess (one_period [alice_white; alice_black])
              lifo_pool "Alice")
       = relatorio "Alice" n detalhes false
       /\ Forall (fun j => precisao j == 0) detalhes.
Proof.
  split; [exact lifo_pool_fair|]. split; [exact book_answers_for_side_to_move|].
  eexists. eexists. split; [vm_compute; reflexivity|].
  apply (legal_engine_never_flags demo_chess (one_period [alice_white; alice_black])
           lifo_pool "Alice" _ _ _ _ lifo_pool_fair book_answers_for_side_to_move
           eq_refl).
Defined.

(** ** Accuracy as a function of the matched moves *)

Lemma round_half_even_near (x : Q) :
  (Qfloor x <= round_half_even x <= Qfloor x + 1)%Z.
Proof.
  unfold round_half_even.
  destruct (x - inject_Z (Qfloor x) ?= 1 # 2)%Q; [destruct (Z.even (Qfloor x))| |]; lia.
Qed.

Lemma round_half_even_mono (x y : Q) :
  x <= y -> (round_half_even x <= round_half_even y)%Z.
Proof.
  intros Hxy.
  pose proof (Qfloor_resp_le x y Hxy) as Hfloor.
  destruct (Z.eq_dec (Qfloor x) (Qfloor y)) as [Heq | Hne].
  - unfold round_half_even. rewrite <- Heq.
    set (f := inject_Z (Qfloor x)).
    destruct (Qcompare_spec (x - f) (1 # 2)) as [Hx | Hx | Hx];
      destruct (Qcompare_spec (y - f) (1 # 2)) as [Hy | Hy | Hy];
      try lia; try (destruct (Z.even (Qfloor x)); lia); exfalso; lra.
  - pose proof (round_half_even_near x). pose proof (round_half_even_near y). lia.
Qed.

Lemma round2_mono (x y : Q) : x <= y -> round2 x <= round2 y.
Proof.
  intros Hxy. unfold round2. rewrite !Qred_correct.
  assert (H : (round_half_even (x * 100) <= round_half_even (y * 100))%Z)
    by (apply round_half_even_mono; lra).
  rewrite Zle_Qle in H. unfold Qdiv. change (/ 100) with (1 # 100). lra.
Qed.

(** X16: for a fixed number of moves, the accuracy does not decrease when
    the number of matched moves grows; and without any move it is 0,
    whatever the number of matches. *)
Theorem accuracy_grows_with_matches (best best' total : nat) (q q' : Q) :
  ((best <= best')%nat ->
   accuracy best total = ret q -> accuracy best' total = ret q' ->
   q <= q')
  /\ accuracy best 0 = ret 0.
Proof.
  split; [|reflexivity].
  intros Hle Hq Hq'. destruct total as [| n]; cbn [accuracy] in *.
  - injection Hq as <-. injection Hq' as <-. lra.
  - unfold truediv in *. cbn [Nat.eqb bind ret app] in *.
    injection Hq as <-. injection Hq' as <-.
    apply round2_mono.
    pose proof (Q_of_nat_pos (S n) ltac:(lia)) as Hpos.
    pose proof (Q_of_nat_le best best' Hle) as Hb.
    apply Qmult_le_compat_r; [|lra].
    unfold Qdiv. apply Qmult_le_compat_r; [exact Hb|].
    apply Qlt_le_weak, Qinv_lt_0_compat. exact Hpos.
Qed.

Lemma accuracy_grows_with_matches_witness :
  (1 <= 2)%nat
  /\ accuracy 1 3 = ret (3333 # 100) /\ accuracy 2 3 = ret (6667 # 100)
  /\ 3333 # 100 <= 6667 # 100
  /\ accuracy 1 0 = ret 0.
Proof.
  split; [lia|]. split; [reflexivity|]. split; [reflexivity|].
  destruct (accuracy_grows_with_matches 1 2 3 (3333 # 100) (6667 # 100)) as [Hmono _].
  split; [apply Hmono; [lia | reflexivity | reflexivity]|].
  exact (proj2 (accuracy_grows_with_matches 1 1 0 0 0)).
Defined.

(** ** Records without move text, in the report *)

Lemma partidas_of_firstn (net : Archive) (uname : string) :
  partidas_of net uname
  = map (unit_of uname)
      (firstn max_partidas (filter (selects uname) (records_newest_first net uname))).
Proof.
  unfold partidas_of, records_newest_first.
  rewrite scan_archives_firstn by apply Nat.le_0_l.
  cbn [app]. now rewrite firstn_map.
Qed.

(** The analysis of a record without move text, when the engine starts and
    the record has an address: the engine is created and never asked, and
    the result has accuracy 0. *)
Lemma analyze_without_moves (env : Chess) (game : RawGame) (uname path u : string)
    (w b : Player) :
  white game = Some w -> black game = Some b ->
  truthy (pgn_text_of game) = false ->
  engine_starts env path = true ->
  game_url game = Some u ->
  analyze_game_process_safe env (game, uname, path)
  = ([EngineStart path],
     inr {| oponente := opponent_of w b uname; resultado := result_of w b uname;
            precisao := 0; url := u |}).
Proof.
  intros Hw Hb Hpgn Hs Hu. unfold analyze_game_process_safe, replay.
  now rewrite Hw, Hb, Hpgn, Hs, Hu.
Qed.

(** C5 as the code has it: a record that carries the handle and has no
    move text (no "pgn" entry, or an empty one) becomes a work unit when it is
    among the first ten records that carry the handle.  Its analysis creates
    the engine and never queries it; when the engine starts and the record
    has an address, its result has accuracy 0, the request is answered with
    a report, and the details of the report hold this result together with
    the result of every other unit whose analysis returned. *)
Theorem record_without_moves_is_reported (env : Chess) (net : Archive) (pool : Pool)
    (uname : string) (game : RawGame) (u : string) :
  fair pool ->
  In game (firstn max_partidas
             (filter (selects uname) (records_newest_first net uname))) ->
  truthy (pgn_text_of game) = false ->
  engine_starts env STOCKFISH_PATH = true ->
  game_url game = Some u ->
  In (unit_of uname game) (partidas_of net uname)
  /\ trace (analyze_game_process_safe env (unit_of uname game))
     = [EngineStart STOCKFISH_PATH]
  /\ exists r,
       outcome (analyze_game_process_safe env (unit_of uname game)) = inr r
       /\ precisao r = 0 /\ url r = u
       /\ exists n detalhes suspeito,
            snd (analisar_usuario env net pool uname)
            = relatorio uname n detalhes suspeito
            /\ In r detalhes
            /\ (forall v r',
                  In v (partidas_of net uname) ->
                  outcome (analyze_game_process_safe env v) = inr r' ->
                  In r' detalhes).
Proof.
  intros Hfair Hin Hpgn Hs Hu.
  assert (Hunit : In (unit_of uname game) (partidas_of net uname)).
  { rewrite partidas_of_firstn. now apply in_map. }
  assert (Hsel : selects uname game = true).
  { apply firstn_incl, filter_In in Hin. tauto. }
  destruct (selects_sides uname game Hsel) as (w & b & Hw & Hb).
  pose proof (analyze_without_moves env game uname STOCKFISH_PATH u w b
                Hw Hb Hpgn Hs Hu) as Hrun.
  fold (unit_of uname game) in Hrun.
  split; [exact Hunit|]. split; [now rewrite Hrun|].
  eexists. split; [now rewrite Hrun|]. split; [reflexivity|]. split; [reflexivity|].
  pose proof (collected_results env pool (partidas_of net uname) Hfair) as Hperm.
  assert (Hkept : forall v r',
             In v (partidas_of net uname) ->
             outcome (analyze_game_process_safe env v) = inr r' ->
             In r' (gather (as_completed pool
                              (submit_all env (partidas_of net uname))) [])).
  { intros v r' Hv Hr'. apply (Permutation_in r' (Permutation_sym Hperm)).
    now apply (successes_In env _ v). }
  unfold analisar_usuario.
  destruct (fetch_archives net uname) as [| a l] eqn:Harch.
  - exfalso. unfold partidas_of in Hunit. rewrite Harch in Hunit. exact Hunit.
  - cbn [snd].
    pose proof (Hkept _ _ Hunit (f_equal snd Hrun)) as Hmine.
    destruct (gather _ []) as [| d ds] eqn:E; [contradiction|].
    do 3 eexists. split; [reflexivity|]. split; [exact Hmine | exact Hkept].
Qed.

Lemma record_without_moves_is_reported_witness :
  fair lifo_pool
  /\ In alice_no_pgn
       (firstn max_partidas
          (filter (selects "Alice")
             (records_newest_first (one_period [alice_white; alice_no_pgn]) "Alice")))
  /\ truthy (pgn_text_of alice_no_pgn) = false
  /\ exists r n detalhes suspeito,
       snd (analisar_usuario demo_chess (one_period [alice_white; alice_no_pgn])
              lifo_pool "Alice")
       = relatorio "Alice" n detalhes suspeito
       /\ In r detalhes /\ precisao r = 0
       /\ url r = "https://www.chess.com/game/live/3".
Proof.
  assert (Hin : In alice_no_pgn
                  (firstn max_partidas
                     (filter (selects "Alice")
                        (records_newest_first (one_period [alice_white; alice_no_pgn])
                           "Alice")))) by (right; left; reflexivity).
  split; [exact lifo_pool_fair|]. split; [exact Hin|]. split; [reflexivity|].
  destruct (record_without_moves_is_reported demo_chess
              (one_period [alice_white; alice_no_pgn]) lifo_pool "Alice" alice_no_pgn
              "https://www.chess.com/game/live/3" lifo_pool_fair Hin
              eq_refl eq_refl eq_refl)
    as (_ & _ & r & _ & Hr0 & Hurl & n & detalhes & suspeito & Hrep & Hmine & _).
  exists r, n, detalhes, suspeito. repeat split; assumption.
Defined.

(** ** The scorer in binary64 *)

Example score_b64_at_threshold :
  score_b64 threshold_results = 74.999999999999986%float
  /\ avaliar_suspeita_b64 threshold_results = false.
Proof. split; vm_compute; reflexivity. Qed.

Lemma mul_b64_comm (x y : float) : (x * y = y * x)%float.
Proof.
  apply Prim2SF_inj. rewrite !mul_spec. unfold SF64mul, SFmul.
  destruct (Prim2SF x) as [sx | sx | | sx mx ex],
           (Prim2SF y) as [sy | sy | | sy my ey];
    try reflexivity; try (now rewrite xorb_comm).
  now rewrite xorb_comm, Pos.mul_comm, Z.add_comm.
Qed.

Lemma wins_among_count (batch : list GameResult) :
  wins_among batch = count_if is_win batch.
Proof.
  unfold count_if. induction batch as [| j l IH]; [reflexivity|].
  cbn [wins_among filter]. unfold is_win at 1.
  destruct (String.eqb (resultado j) "win"); cbn [length]; now rewrite IH.
Qed.

Lemma above_90_among_count (batch : list GameResult) :
  above_90_among batch = count_if above_90_b64 batch.
Proof.
  unfold count_if. induction batch as [| j l IH]; [reflexivity|].
  cbn [above_90_among filter]. unfold above_90_b64 at 1.
  destruct (90 <? precisao_b64 j)%float; cbn [length]; now rewrite IH.
Qed.

Lemma added_up_sum (batch : list GameResult) (running : float) :
  added_up running batch
  = fold_left (fun acc j => (acc + precisao_b64 j)%float) batch running.
Proof.
  revert running. induction batch as [| j l IH]; intros running; [reflexivity|].
  cbn [added_up fold_left]. apply IH.
Qed.

(** C2: for a batch that is not empty, the score the code computes is
    100 x (0.5 x mean_accuracy/100 + 0.3 x win_rate + 0.2 x high_accuracy_rate),
    every operation in binary64 and the accuracies added in the order of the
    batch, and the flag is true exactly when that score is at least 75. *)
Theorem computed_score_is_the_formula (jogos : list GameResult) :
  jogos <> [] ->
  score_b64 jogos = spec_score_b64 jogos
  /\ avaliar_suspeita_b64 jogos = spec_suspicious_b64 jogos
  /\ (avaliar_suspeita_b64 jogos = true <-> (75 <=? score_b64 jogos)%float = true).
Proof.
  intros Hne.
  assert (Hscore : score_b64 jogos = spec_score_b64 jogos).
  { unfold score_b64, spec_score_b64, mean_accuracy_b64, win_rate_b64,
      high_accuracy_rate_b64, sum_precisao_b64.
    rewrite wins_among_count, above_90_among_count, added_up_sum.
    rewrite (mul_b64_comm 100), (mul_b64_comm 0.5), (mul_b64_comm 0.3),
      (mul_b64_comm 0.2).
    reflexivity. }
  assert (Hflag : avaliar_suspeita_b64 jogos = (75 <=? score_b64 jogos)%float).
  { unfold avaliar_suspeita_b64. destruct jogos; [congruence | reflexivity]. }
  split; [exact Hscore|]. split.
  - unfold spec_suspicious_b64. now rewrite <- Hscore.
  - now rewrite Hflag.
Qed.

Lemma computed_score_is_the_formula_witness :
  threshold_results <> []
  /\ spec_score_b64 threshold_results = 74.999999999999986%float
  /\ avaliar_suspeita_b64 threshold_results = false.
Proof.
  assert (Hne : threshold_results <> []) by discriminate.
  destruct (computed_score_is_the_formula threshold_results Hne) as (Hscore & Hflag & _).
  split; [exact Hne|]. split.
  - rewrite <- Hscore. vm_compute. reflexivity.
  - rewrite Hflag. vm_compute. reflexivity.
Defined.

(** ** Order of arrival, in binary64 *)



